(** * DPoS consensus context of go-nebulas: core/dpos_context.go

    A shallow embedding of the dynasty context (the six tries, the vote
    tally, the candidate ranking, the kick-out rules, the election driver
    and the scheduler view) together with the properties its specification
    states about them.

    The tries are finite maps from byte strings to byte strings; the code
    that mutates them is written in a small state-and-error monad that also
    collects a journal: the lines the code sends to the logger and the
    iterators it opens on a trie. *)

From Stdlib Require Import ZArith NArith Lia.
From Stdlib Require Import Strings.Byte.
From stdpp Require Import gmap strings list sorting.

Local Open Scope Z_scope.

(** ** Bytes *)

Abbreviation bytes := (list byte).

#[global] Instance byte_eq_dec : EqDecision byte := Byte.byte_eq_dec.
#[global] Instance byte_countable : Countable byte :=
  inj_countable Byte.to_N Byte.of_N Byte.of_to_N.

(** ** Consensus related constants (dpos_context.go, lines 36-42) *)

Definition BlockInterval : Z := 5.
Definition AcceptedNetWorkDelay : Z := 2.
Definition DynastyInterval : Z := 60.
Definition DynastySize : Z := 6.
Definition SafeSize : Z := DynastySize ÷ 3 + 1.

(** ** Machine integers

    [int64] values are integers of [Z] kept in the signed 64-bit range;
    Go's [/] and [%] truncate towards zero ([Z.quot] and [Z.rem]). *)

Definition wrap64 (z : Z) : Z := (z + 2 ^ 63) mod 2 ^ 64 - 2 ^ 63.
Definition add64 (a b : Z) : Z := wrap64 (a + b).
Definition sub64 (a b : Z) : Z := wrap64 (a - b).

(** ** Errors and journal *)

Inductive error : Set :=
| ErrKeyNotFound              (* storage.ErrKeyNotFound *)
| ErrTooFewCandidates
| ErrInitialDynastyNotEnough
| ErrNotBlockForgTime
| ErrInvalidAddress           (* AddressParse, AddressParseFromBytes *)
| ErrGenesisNotFound          (* LoadBlockFromStorage *)
| PanicIndexOutOfRange        (* run-time panic: index out of range *)
| PanicNilDereference         (* run-time panic: nil pointer dereference *).

#[global] Instance error_eq_dec : EqDecision error.
Proof. solve_decision. Defined.

Inductive result (A : Type) : Type :=
| Ok (a : A)
| Err (e : error).
Arguments Ok {A} a.
Arguments Err {A} e.

#[global] Instance result_eq_dec {A} `{EqDecision A} : EqDecision (result A).
Proof. solve_decision. Defined.

Inductive TrieName : Set :=
| dynastyT | nextDynastyT | delegateT | voteT | candidateT | mintCntT
| genesisDynastyT.

Inductive event : Type :=
| LogVoterVotesNobody
    (* "unexpected voter who votes nobody appears in delegate trie" *)
| LogKickoutCandidate (hex : string)        (* "Kickout Candidate: " *)
| LogKickoutDynasty (dynastyID : Z)         (* "Kickout Dynasty " *)
| LogCannotKickout (addr : bytes)
    (* "Cannot Kickout Active Bootstrap Candidate: " *)
| LogElect (nextDynastyID baseDynastyID : Z) (* "elect " .. " from " .. *)
| LogSelected (addr : string)               (* a directly selected candidate *)
| LogNewDynasty                             (* "new dynasty" *)
| IterOpen (t : TrieName) (prefix : bytes)  (* Iterator(prefix) on a trie *).

#[global] Instance TrieName_eq_dec : EqDecision TrieName.
Proof. solve_decision. Defined.

#[global] Instance event_eq_dec : EqDecision event.
Proof. solve_decision. Defined.

(** ** The state-and-error monad

    A computation runs on a state [S]; it returns a value or an error, the
    state it leaves (Go mutates in place, so the state is kept on an error
    too) and the journal of what it logged. *)

Definition M (S A : Type) : Type := S → result A * S * list event.

Definition ret {S A} (a : A) : M S A := λ s, (Ok a, s, []).

Definition bind {S A B} (m : M S A) (f : A → M S B) : M S B :=
  λ s, match m s with
       | (Ok a, s1, w1) =>
           match f a s1 with (r, s2, w2) => (r, s2, w1 ++ w2) end
       | (Err e, s1, w1) => (Err e, s1, w1)
       end.

Notation "'do' x <- m ; k" := (bind m (λ x, k))
  (at level 10, x name, m at level 100, k at level 200,
   format "'[v' 'do'  x  <-  m ; '/' k ']'").
Notation "'run' m ; k" := (bind m (λ _, k))
  (at level 10, m at level 100, k at level 200,
   format "'[v' 'run'  m ; '/' k ']'").

Definition throw {S A} (e : error) : M S A := λ s, (Err e, s, []).
Definition gets {S A} (f : S → A) : M S A := λ s, (Ok (f s), s, []).
Definition modify {S} (f : S → S) : M S unit := λ s, (Ok tt, f s, []).
Definition emit {S} (e : event) : M S unit := λ s, (Ok tt, s, [e]).
Definition lift {S A} (r : result A) : M S A := λ s, (r, s, []).

(** [x, err := call] : the error is handed to the caller as a value. *)
Definition try {S A} (m : M S A) : M S (result A) :=
  λ s, match m s with (r, s1, w1) => (Ok r, s1, w1) end.

(** [for exist { body; exist, err = iter.Next() }] over a snapshot. *)
Fixpoint forM_ {S A} (l : list A) (body : A → M S unit) : M S unit :=
  match l with
  | [] => ret tt
  | x :: l' => run body x; forM_ l' body
  end.

(** [for i := lo; i < hi; i++ { body }] running [n] more times from [i]. *)
Fixpoint forZ_ {St} (n : nat) (i : Z) (body : Z → M St unit) : M St unit :=
  match n with
  | O => ret tt
  | S n' => run body i; forZ_ n' (i + 1) body
  end.

(** Projections of a run. *)
Definition outcome {S A} (x : result A * S * list event) : result A := x.1.1.
Definition final {S A} (x : result A * S * list event) : S := x.1.2.
Definition journal {S A} (x : result A * S * list event) : list event := x.2.

(** [for ... { acc = body(acc, x) }] over a snapshot, with a local
    variable carried from one round to the next. *)
Fixpoint foldM {S A B} (l : list A) (acc : B) (body : B → A → M S B) : M S B :=
  match l with
  | [] => ret acc
  | x :: l' => do acc' <- body acc x; foldM l' acc' body
  end.

(** ** The platform

    What the file consumes from the rest of the repository and from the Go
    run time without fixing it: the length and the checksum of an address,
    the genesis timestamp, the order in which a trie iterator yields the
    entries of a trie, and the order in which [range] yields the entries
    of a Go map. *)

Abbreviation Trie := (gmap bytes bytes).

Class Platform : Type := {
  AddressLength : nat;
  checksum_ok : bytes → bool;
  GenesisTimestamp : Z;
  trie_order : Trie → list (bytes * bytes);
  range_order : gmap string N → list (string * N);
}.

(** Both orders enumerate each entry once. *)
Class PlatformLaws (P : Platform) : Prop := {
  trie_order_perm : ∀ t : Trie, trie_order t ≡ₚ map_to_list t;
  range_order_perm : ∀ m : gmap string N, range_order m ≡ₚ map_to_list m;
}.

(** ** The trie handle

    Modelled from the spec: common/trie (BatchTrie) is consumed through
    [Get], [Put], [Del], [Iterator], [Empty] and [Clone]; a trie is a finite
    map over byte strings, a lookup or an iterator start that finds nothing
    answers [ErrKeyNotFound], and an iterator walks the entries that were
    under its prefix when it was opened.  A handle is a named place of the
    state a computation runs on. *)

Record TrieRef (S : Type) : Type := {
  trie_name : TrieName;
  trie_view : S → Trie;
  trie_over : Trie → S → S;
}.
Arguments trie_name {S} _.
Arguments trie_view {S} _ _.
Arguments trie_over {S} _ _ _.

Definition Get {S} (t : TrieRef S) (key : bytes) : M S bytes :=
  λ s, match trie_view t s !! key with
       | Some val => (Ok val, s, [])
       | None => (Err ErrKeyNotFound, s, [])
       end.

Definition Put {S} (t : TrieRef S) (key val : bytes) : M S unit :=
  modify (λ s, trie_over t (<[key := val]> (trie_view t s)) s).

Definition Del {S} (t : TrieRef S) (key : bytes) : M S unit :=
  λ s, match trie_view t s !! key with
       | Some _ => (Ok tt, trie_over t (delete key (trie_view t s)) s, [])
       | None => (Err ErrKeyNotFound, s, [])
       end.

Definition Empty {S} (t : TrieRef S) : M S bool :=
  gets (λ s, bool_decide (trie_view t s = ∅)).

(** The entries under a prefix, in iteration order. *)
Definition entries_under `{Platform} (prefix : bytes) (t : Trie) : list (bytes * bytes) :=
  filter (λ kv, prefix `prefix_of` kv.1) (trie_order t).

(** [Iterator(prefix)] followed by the [Next]/[Value] walk: the values met. *)
Definition Iterator `{Platform} {S} (t : TrieRef S) (prefix : bytes) : M S (list bytes) :=
  λ s, match entries_under prefix (trie_view t s) with
       | [] => (Err ErrKeyNotFound, s, [IterOpen (trie_name t) prefix])
       | kvs => (Ok (kvs.*2), s, [IterOpen (trie_name t) prefix])
       end.

(** A trie that is read and never written (the genesis block's). *)
Definition frozen {S : Type} (name : TrieName) (t : Trie) : TrieRef S :=
  {| trie_name := name; trie_view := λ _, t; trie_over := λ _ s, s |}.

(** ** byteutils and hash/fnv

    Modelled from the spec: [encodeInt64] is big-endian two's complement on
    8 bytes; the printable form of a byte string is its lower-case
    hexadecimal text (the addresses of the configuration files); FNV-1a on
    32 bits has offset basis 2166136261 and prime 16777619. *)

Definition byte_of_Z (z : Z) : byte :=
  default "000"%byte (Byte.of_N (Z.to_N (z mod 256))).

Definition FromInt64 (v : Z) : bytes :=
  (λ i : nat, byte_of_Z ((v mod 2 ^ 64) ≫ (8 * (7 - Z.of_nat i)))) <$> seq 0 8.

Definition Uint64 (data : bytes) : Z :=
  fold_left (λ acc b, acc * 256 + Z.of_N (Byte.to_N b)) data 0.

Definition Int64 (data : bytes) : result Z :=
  if decide (length data < 8)%nat then Err PanicIndexOutOfRange
  else Ok (wrap64 (Uint64 (take 8 data))).

Definition hex_digit (n : N) : Ascii.ascii :=
  default Ascii.zero (String.get (N.to_nat n) "0123456789abcdef").

Definition hex_value (c : Ascii.ascii) : option N :=
  let n := Ascii.N_of_ascii c in
  if (48 <=? n)%N && (n <=? 57)%N then Some (n - 48)%N
  else if (97 <=? n)%N && (n <=? 102)%N then Some (n - 87)%N
  else if (65 <=? n)%N && (n <=? 70)%N then Some (n - 55)%N
  else None.

Fixpoint Hex (data : bytes) : string :=
  match data with
  | [] => EmptyString
  | b :: data' =>
      String (hex_digit (Byte.to_N b / 16)%N)
        (String (hex_digit (Byte.to_N b mod 16)%N) (Hex data'))
  end.

Fixpoint FromHex (s : string) : option bytes :=
  match s with
  | EmptyString => Some []
  | String h (String l s') =>
      match hex_value h, hex_value l, FromHex s' with
      | Some hi, Some lo, Some data' =>
          match Byte.of_N (16 * hi + lo)%N with
          | Some b => Some (b :: data')
          | None => None
          end
      | _, _, _ => None
      end
  | String _ EmptyString => None
  end.

Definition fnv32a (data : bytes) : Z :=
  fold_left (λ h b, (Z.lxor h (Z.of_N (Byte.to_N b)) * 16777619) mod 2 ^ 32)
    data 2166136261.

(** ** Addresses

    Modelled from the spec: an address is a byte string of the platform's
    address length that passes the checksum; its canonical string is its
    hexadecimal text, and the text parses back to it. *)

Definition AddressParseFromBytes `{Platform} (b : bytes) : result bytes :=
  if decide (length b = AddressLength) then
    if checksum_ok b then Ok b else Err ErrInvalidAddress
  else Err ErrInvalidAddress.

Definition AddressParse `{Platform} (s : string) : result bytes :=
  match FromHex s with
  | Some b => AddressParseFromBytes b
  | None => Err ErrInvalidAddress
  end.

(** ** Collaborators of the context

    Modelled from the spec: the account state answers a balance for an
    address and a root hash; the storage answers the genesis block, of
    which this file reads the dynasty trie only. *)

Record AccountState : Type := {
  RootHash : bytes;
  Balance : bytes → N;
}.

Record StorageHandle : Type := {
  genesisDynastyTrie : option Trie;
}.

(** [LoadBlockFromStorage(GenesisHash, stor, nil, nil)], then
    [genesis.dposContext.dynastyTrie]. *)
Definition LoadGenesisDynasty (stor : option StorageHandle) : result Trie :=
  match stor with
  | None => Err PanicNilDereference
  | Some h =>
      match genesisDynastyTrie h with
      | Some g => Ok g
      | None => Err ErrGenesisNotFound
      end
  end.

(** ** DposContext and DynastyContext (lines 44-54 and 210-223) *)

Record DposContext : Type := {
  dynastyTrie : Trie;      (* key: delegatee, val: delegatee *)
  nextDynastyTrie : Trie;  (* key: delegatee, val: delegatee *)
  delegateTrie : Trie;     (* key: delegatee + delegator, val: delegator *)
  voteTrie : Trie;         (* key: delegator, val: delegatee *)
  candidateTrie : Trie;    (* key: delegatee, val: delegatee *)
  mintCntTrie : Trie;      (* key: dynastyId + delegatee, val: count *)
  storage : option StorageHandle;
}.

Record DynastyContext : Type := {
  TimeStamp : Z;
  Offset : Z;
  Proposer : option bytes;
  DynastyTrie : Trie;
  NextDynastyTrie : Trie;
  DelegateTrie : Trie;
  CandidateTrie : Trie;
  VoteTrie : Trie;
  MintCntTrie : Trie;
  Accounts : option AccountState;
  Storage : option StorageHandle;
}.

Definition with_Offset (o : Z) (dc : DynastyContext) : DynastyContext :=
  {| TimeStamp := TimeStamp dc; Offset := o; Proposer := Proposer dc;
     DynastyTrie := DynastyTrie dc; NextDynastyTrie := NextDynastyTrie dc;
     DelegateTrie := DelegateTrie dc; CandidateTrie := CandidateTrie dc;
     VoteTrie := VoteTrie dc; MintCntTrie := MintCntTrie dc;
     Accounts := Accounts dc; Storage := Storage dc |}.

Definition with_Proposer (p : option bytes) (dc : DynastyContext) : DynastyContext :=
  {| TimeStamp := TimeStamp dc; Offset := Offset dc; Proposer := p;
     DynastyTrie := DynastyTrie dc; NextDynastyTrie := NextDynastyTrie dc;
     DelegateTrie := DelegateTrie dc; CandidateTrie := CandidateTrie dc;
     VoteTrie := VoteTrie dc; MintCntTrie := MintCntTrie dc;
     Accounts := Accounts dc; Storage := Storage dc |}.

Definition with_DynastyTrie (t : Trie) (dc : DynastyContext) : DynastyContext :=
  {| TimeStamp := TimeStamp dc; Offset := Offset dc; Proposer := Proposer dc;
     DynastyTrie := t; NextDynastyTrie := NextDynastyTrie dc;
     DelegateTrie := DelegateTrie dc; CandidateTrie := CandidateTrie dc;
     VoteTrie := VoteTrie dc; MintCntTrie := MintCntTrie dc;
     Accounts := Accounts dc; Storage := Storage dc |}.

Definition with_NextDynastyTrie (t : Trie) (dc : DynastyContext) : DynastyContext :=
  {| TimeStamp := TimeStamp dc; Offset := Offset dc; Proposer := Proposer dc;
     DynastyTrie := DynastyTrie dc; NextDynastyTrie := t;
     DelegateTrie := DelegateTrie dc; CandidateTrie := CandidateTrie dc;
     VoteTrie := VoteTrie dc; MintCntTrie := MintCntTrie dc;
     Accounts := Accounts dc; Storage := Storage dc |}.

Definition with_DelegateTrie (t : Trie) (dc : DynastyContext) : DynastyContext :=
  {| TimeStamp := TimeStamp dc; Offset := Offset dc; Proposer := Proposer dc;
     DynastyTrie := DynastyTrie dc; NextDynastyTrie := NextDynastyTrie dc;
     DelegateTrie := t; CandidateTrie := CandidateTrie dc;
     VoteTrie := VoteTrie dc; MintCntTrie := MintCntTrie dc;
     Accounts := Accounts dc; Storage := Storage dc |}.

Definition with_CandidateTrie (t : Trie) (dc : DynastyContext) : DynastyContext :=
  {| TimeStamp := TimeStamp dc; Offset := Offset dc; Proposer := Proposer dc;
     DynastyTrie := DynastyTrie dc; NextDynastyTrie := NextDynastyTrie dc;
     DelegateTrie := DelegateTrie dc; CandidateTrie := t;
     VoteTrie := VoteTrie dc; MintCntTrie := MintCntTrie dc;
     Accounts := Accounts dc; Storage := Storage dc |}.

Definition with_VoteTrie (t : Trie) (dc : DynastyContext) : DynastyContext :=
  {| TimeStamp := TimeStamp dc; Offset := Offset dc; Proposer := Proposer dc;
     DynastyTrie := DynastyTrie dc; NextDynastyTrie := NextDynastyTrie dc;
     DelegateTrie := DelegateTrie dc; CandidateTrie := CandidateTrie dc;
     VoteTrie := t; MintCntTrie := MintCntTrie dc;
     Accounts := Accounts dc; Storage := Storage dc |}.

Definition with_MintCntTrie (t : Trie) (dc : DynastyContext) : DynastyContext :=
  {| TimeStamp := TimeStamp dc; Offset := Offset dc; Proposer := Proposer dc;
     DynastyTrie := DynastyTrie dc; NextDynastyTrie := NextDynastyTrie dc;
     DelegateTrie := DelegateTrie dc; CandidateTrie := CandidateTrie dc;
     VoteTrie := VoteTrie dc; MintCntTrie := t;
     Accounts := Accounts dc; Storage := Storage dc |}.

(** The six trie handles of a dynasty context. *)
Definition dcDynasty : TrieRef DynastyContext :=
  {| trie_name := dynastyT; trie_view := DynastyTrie; trie_over := with_DynastyTrie |}.
Definition dcNextDynasty : TrieRef DynastyContext :=
  {| trie_name := nextDynastyT; trie_view := NextDynastyTrie;
     trie_over := with_NextDynastyTrie |}.
Definition dcDelegate : TrieRef DynastyContext :=
  {| trie_name := delegateT; trie_view := DelegateTrie; trie_over := with_DelegateTrie |}.
Definition dcCandidate : TrieRef DynastyContext :=
  {| trie_name := candidateT; trie_view := CandidateTrie;
     trie_over := with_CandidateTrie |}.
Definition dcVote : TrieRef DynastyContext :=
  {| trie_name := voteT; trie_view := VoteTrie; trie_over := with_VoteTrie |}.
Definition dcMintCnt : TrieRef DynastyContext :=
  {| trie_name := mintCntT; trie_view := MintCntTrie; trie_over := with_MintCntTrie |}.

(** ** tallyVotes (lines 225-288) *)

(** One round of the inner loop, for one delegator of [delegatee]
    (lines 266-280). *)
Definition tallyDelegator `{Platform} (delegatee : bytes)
    (votes : gmap string N) (value : bytes) : M DynastyContext (gmap string N) :=
  do delegator <- lift (AddressParseFromBytes value);
  let score := default 0%N (votes !! Hex delegatee) in
  do accounts <- gets Accounts;
  match accounts with
  | None => throw PanicNilDereference
  | Some accounts =>
      let weight := Balance accounts delegator in
      ret (<[Hex delegatee := (score + weight)%N]> votes)
  end.

(** One round of the outer loop, for one candidate (lines 245-285). *)
Definition tallyCandidate `{Platform}
    (votes : gmap string N) (value : bytes) : M DynastyContext (gmap string N) :=
  do delegatee <- lift (AddressParseFromBytes value);
  do r <- try (Iterator dcDelegate delegatee);
  match r with
  | Err ErrKeyNotFound => ret (<[Hex delegatee := 0%N]> votes)
  | Err e => throw e
  | Ok delegators => foldM delegators votes (tallyDelegator delegatee)
  end.

Definition tallyVotes `{Platform} : M DynastyContext (gmap string N) :=
  do empty <- Empty dcCandidate;
  if empty : bool then ret ∅ else
  do r <- try (Iterator dcCandidate []);
  match r with
  | Err ErrKeyNotFound => ret ∅
  | Err e => throw e
  | Ok candidates => foldM candidates (∅ : gmap string N) tallyCandidate
  end.

(** ** Candidates and their order (lines 290-309) *)

Record Candidate : Type := {
  Address : bytes;
  Votes : N;
}.

#[global] Instance Candidate_eq_dec : EqDecision Candidate.
Proof. solve_decision. Defined.

(** [Less(i, j)] on the two elements it compares. *)
Definition Less (p q : Candidate) : bool :=
  if (Votes p <? Votes q)%N then false
  else if (Votes q <? Votes p)%N then true
  else String.ltb (Hex (Address p)) (Hex (Address q)).

(** After [sort.Sort], no element is [Less] than one before it. *)
Definition ranked_before (p q : Candidate) : Prop := Less q p = false.

#[global] Instance ranked_before_dec : RelDecision ranked_before.
Proof. intros p q. unfold ranked_before. apply _. Defined.

(** Modelled from the spec: [sort.Sort] of the Go library returns the
    elements in an order where no element is [Less] than an earlier one;
    a merge sort stands for it. *)
Definition sort_Sort (l : list Candidate) : list Candidate :=
  merge_sort ranked_before l.

(** ** fetchActiveBootstapValidators (lines 311-343) *)

(** One round of the loop, for one genesis validator (lines 329-340). *)
Definition fetchActiveRound {S} (candidates : TrieRef S)
    (activeBootstapValidators : list bytes) (validator : bytes) : M S (list bytes) :=
  do r <- try (Get candidates validator);
  match r with
  | Err ErrKeyNotFound => ret activeBootstapValidators
  | Err e => throw e
  | Ok _ => ret (activeBootstapValidators ++ [validator])
  end.

Definition fetchActiveBootstapValidators `{Platform} {S}
    (stor : option StorageHandle) (candidates : TrieRef S) : M S (list bytes) :=
  do genesis <- lift (LoadGenesisDynasty stor);
  do r <- try (Iterator (frozen genesisDynastyT genesis) []);
  match r with
  | Err ErrKeyNotFound => ret []
  | Err e => throw e
  | Ok validators => foldM validators [] (fetchActiveRound candidates)
  end.

(** ** chooseCandidates (lines 345-374)

    [votes] is the caller's map; the first loop deletes from it. *)

(** One round of the first loop: the map and the bootstrap candidates so
    far, and one active bootstrap validator (lines 353-358). *)
Definition chooseBootstrap `{Platform} {S}
    (st : gmap string N * list Candidate) (validator : bytes)
    : M S (gmap string N * list Candidate) :=
  let votes := delete (Hex validator) st.1 in
  do address <- lift (AddressParseFromBytes validator);
  ret (votes, st.2 ++ [{| Address := address; Votes := 0%N |}]).

(** One round of the second loop, for one entry of the map (lines 364-368). *)
Definition chooseVoted `{Platform} {S}
    (candidates : list Candidate) (kv : string * N) : M S (list Candidate) :=
  do addr <- lift (AddressParse kv.1);
  ret (candidates ++ [{| Address := addr; Votes := kv.2 |}]).

Definition chooseCandidates `{Platform}
    (votes : gmap string N) : M DynastyContext (list Candidate) :=
  do stor <- gets Storage;
  do activeBootstrapValidators <- fetchActiveBootstapValidators stor dcCandidate;
  do st <- foldM activeBootstrapValidators (votes, []) chooseBootstrap;
  let votes := st.1 in
  let bootstrapCandidates := sort_Sort st.2 in
  do candidates <- foldM (range_order votes) [] chooseVoted;
  let candidates := sort_Sort candidates in
  ret (bootstrapCandidates ++ candidates).

(** ** checkActiveBootstrapValidator (lines 376-396) *)

Definition checkActiveBootstrapValidator {S} (validator : bytes)
    (stor : option StorageHandle) (candidates : TrieRef S) : M S bool :=
  do genesis <- lift (LoadGenesisDynasty stor);
  do r <- try (Get (frozen genesisDynastyT genesis) validator);
  match r with
  | Err ErrKeyNotFound => ret false
  | Err e => throw e
  | Ok _ =>
      do r <- try (Get candidates validator);
      match r with
      | Err ErrKeyNotFound => ret false
      | Err e => throw e
      | Ok _ => ret true
      end
  end.

(** ** kickout (lines 398-442) *)

(** One round of the loop, for one delegator of the candidate (lines 418-438). *)
Definition kickoutRound {S} (delegateTrie voteTrie : TrieRef S)
    (candidate delegator : bytes) : M S unit :=
  let key := candidate ++ delegator in
  do r <- try (Del delegateTrie key);
  match r with
  | Err ErrKeyNotFound | Ok _ =>
      do r <- try (Get voteTrie delegator);
      match r with
      | Err ErrKeyNotFound => emit LogVoterVotesNobody
      | Err e => throw e
      | Ok bytes =>
          if bool_decide (bytes = candidate) then
            do r <- try (Del voteTrie delegator);
            match r with
            | Err ErrKeyNotFound | Ok _ => ret tt
            | Err e => throw e
            end
          else ret tt
      end
  | Err e => throw e
  end.

Definition kickout `{Platform} {S} (stor : option StorageHandle)
    (candidatesTrie delegateTrie voteTrie : TrieRef S) (candidate : bytes) : M S unit :=
  do r <- try (Del candidatesTrie candidate);
  match r with
  | Err ErrKeyNotFound => ret tt
  | Err e => throw e
  | Ok _ =>
      do r <- try (Iterator delegateTrie candidate);
      match r with
      | Err ErrKeyNotFound => ret tt
      | Err e => throw e
      | Ok delegators =>
          run forM_ delegators (kickoutRound delegateTrie voteTrie candidate);
          emit (LogKickoutCandidate (Hex candidate))
      end
  end.

(** [(dc *DynastyContext) kickoutCandidate] (lines 444-446) *)
Definition kickoutCandidate `{Platform} (candidate : bytes) : M DynastyContext unit :=
  do stor <- gets Storage;
  kickout stor dcCandidate dcDelegate dcVote candidate.

(** ** kickoutDynasty (lines 453-503) *)

(** One round of the loop, for one validator of the dynasty (lines 466-500). *)
Definition kickoutDynastyRound `{Platform}
    (dynastyID : Z) (validator : bytes) : M DynastyContext unit :=
  let key := FromInt64 dynastyID ++ validator in
  do r <- try (Get dcMintCnt key);
  do enough <- match r with
               | Err ErrKeyNotFound => ret false
               | Err e => throw e
               | Ok bytes =>
                   do cnt <- lift (Int64 bytes);
                   ret (DynastyInterval ÷ BlockInterval ÷ DynastySize ÷ 2 <=? cnt)
               end;
  if enough : bool then ret tt
  else
    do stor <- gets Storage;
    do isActiveBootstrapValidator <-
      checkActiveBootstrapValidator validator stor dcCandidate;
    if isActiveBootstrapValidator : bool then
      do addr <- lift (AddressParseFromBytes validator);
      emit (LogCannotKickout addr)
    else kickoutCandidate validator.

Definition kickoutDynasty `{Platform} (dynastyID : Z) : M DynastyContext unit :=
  run emit (LogKickoutDynasty dynastyID);
  do validators <- Iterator dcDynasty [];
  forM_ validators (kickoutDynastyRound dynastyID).

(** ** electNextDynastyOnBaseDynasty (lines 505-558) *)

(** One round of the inner loop: a candidate selected directly
    (lines 533-538). *)
Definition selectDirect {S : Type} (nextDynastyTrie : Trie) (c : Candidate) : M S Trie :=
  let delegatee := Address c in
  run emit (LogSelected (Hex (Address c)));
  ret (<[delegatee := delegatee]> nextDynastyTrie).

(** The last one, selected at random (lines 541-552). *)
Definition selectRandom (nextDynastyID : Z) (candidates : list Candidate)
    (nextDynastyTrie : Trie) : M DynastyContext Trie :=
  let len := Z.of_nat (length candidates) in
  let directSelected := DynastySize - 1 in
  if directSelected <? len then
    do accounts <- gets Accounts;
    match accounts with
    | None => throw PanicNilDereference
    | Some accounts =>
        let sum32 := fnv32a (FromInt64 nextDynastyID ++ RootHash accounts) in
        let result := Z.rem sum32 (len - directSelected) in
        let offset := result + DynastySize - 1 in
        match candidates !! Z.to_nat offset with
        | Some c => ret (<[Address c := Address c]> nextDynastyTrie)
        | None => throw PanicIndexOutOfRange
        end
    end
  else ret nextDynastyTrie.

(** One round of the loop, for the dynasty [i] (lines 511-555). *)
Definition electRound `{Platform}
    (nextDynastyID : Z) (baseGenesis : bool) (i : Z) : M DynastyContext unit :=
  run (if baseGenesis then ret tt else kickoutDynasty i);
  do votes <- tallyVotes;
  do candidates <- chooseCandidates votes;
  let len := Z.of_nat (length candidates) in
  if len <? SafeSize then throw ErrTooFewCandidates
  else
    let directSelected := DynastySize - 1 in
    do nextDynastyTrie <-
      foldM (take (Z.to_nat directSelected) candidates) (∅ : Trie) selectDirect;
    do nextDynastyTrie <- selectRandom nextDynastyID candidates nextDynastyTrie;
    run emit LogNewDynasty;
    modify (λ dc, with_NextDynastyTrie nextDynastyTrie
                    (with_DynastyTrie (NextDynastyTrie dc) dc)).

Definition electNextDynastyOnBaseDynasty `{Platform}
    (baseDynastyID nextDynastyID : Z) (baseGenesis : bool) : M DynastyContext unit :=
  run emit (LogElect nextDynastyID baseDynastyID);
  let baseDynastyID :=
    if baseGenesis then sub64 nextDynastyID 1 else baseDynastyID in
  forZ_ (Z.to_nat (nextDynastyID - baseDynastyID)) baseDynastyID
    (electRound nextDynastyID baseGenesis).

(** ** GenesisDynastyContext (lines 599-660) *)

Record GenesisConf : Type := {
  Dynasty : list string;   (* conf.Consensus.Dpos.Dynasty *)
}.

Definition emptyDynastyContext `{Platform} : DynastyContext :=
  {| TimeStamp := GenesisTimestamp; Offset := 0; Proposer := None;
     DynastyTrie := ∅; NextDynastyTrie := ∅; DelegateTrie := ∅;
     CandidateTrie := ∅; VoteTrie := ∅; MintCntTrie := ∅;
     Accounts := None; Storage := None |}.

(** One round of the loop, for the [i]-th configured address (lines 625-645). *)
Definition genesisMember `{Platform} (ia : nat * string) : M DynastyContext unit :=
  let i := Z.of_nat ia.1 in
  let addr := ia.2 in
  do v <- lift (AddressParse addr);
  run (if i <? DynastySize then Put dcDynasty v v else ret tt);
  run Put dcVote v v;
  let key := v ++ v in
  run Put dcDelegate key v;
  Put dcCandidate v v.

Definition GenesisDynastyContext `{Platform}
    (stor : option StorageHandle) (conf : GenesisConf) : result DynastyContext :=
  if Z.of_nat (length (Dynasty conf)) <? SafeSize then Err ErrInitialDynastyNotEnough
  else
    match forM_ (zip (seq 0 (length (Dynasty conf))) (Dynasty conf)) genesisMember
            emptyDynastyContext with
    | (Ok _, dc, _) => Ok (with_NextDynastyTrie (DynastyTrie dc) dc)
    | (Err e, _, _) => Err e
    end.

(** ** TraverseDynasty (lines 737-756) *)

Definition TraverseDynasty `{Platform} {S} (dynasty : TrieRef S) : M S (list bytes) :=
  do empty <- Empty dynasty;
  if empty : bool then ret []
  else
    do r <- try (Iterator dynasty []);
    match r with
    | Err ErrKeyNotFound => ret []
    | Err e => throw e
    | Ok members => ret members
    end.

(** ** NextDynastyContext (lines 662-735) *)

Record Block : Type := {
  header_timestamp : Z;       (* block.header.timestamp *)
  dposContext : DposContext;
  accState : option AccountState;
  block_storage : option StorageHandle;
}.

Definition NextDynastyContext `{Platform}
    (block : Block) (elapsedSecond : Z) : result DynastyContext * list event :=
  let context :=
    {| TimeStamp := add64 (header_timestamp block) elapsedSecond;
       Offset := 0; Proposer := None;
       DynastyTrie := dynastyTrie (dposContext block);
       NextDynastyTrie := nextDynastyTrie (dposContext block);
       DelegateTrie := delegateTrie (dposContext block);
       CandidateTrie := candidateTrie (dposContext block);
       VoteTrie := voteTrie (dposContext block);
       MintCntTrie := mintCntTrie (dposContext block);
       Accounts := accState block;
       Storage := block_storage block |} in
  let baseDynastyID := header_timestamp block ÷ DynastyInterval in
  let newDynastyID := TimeStamp context ÷ DynastyInterval in
  let offset := Z.rem (TimeStamp context) DynastyInterval in
  if negb (Z.rem offset BlockInterval =? 0) then (Err ErrNotBlockForgTime, [])
  else
    let offset := Z.rem (offset ÷ BlockInterval) DynastySize in
    let rest : M DynastyContext unit :=
      run (if baseDynastyID <? newDynastyID then
             run (if add64 baseDynastyID 1 <? newDynastyID then
                    electNextDynastyOnBaseDynasty
                      baseDynastyID (sub64 newDynastyID 1) (baseDynastyID =? 0)
                  else ret tt);
             electNextDynastyOnBaseDynasty
               (sub64 newDynastyID 1) newDynastyID (baseDynastyID =? 0)
           else ret tt);
      do delegatees <- TraverseDynasty dcDynasty;
      run modify (with_Offset offset);
      if Z.of_nat (length delegatees) <=? offset then modify (with_Proposer None)
      else
        match (if offset <? 0 then None else delegatees !! Z.to_nat offset) with
        | Some member => modify (with_Proposer (Some member))
        | None => throw PanicIndexOutOfRange
        end in
    match rest context with
    | (Ok _, context', w) => (Ok context', w)
    | (Err e, _, w) => (Err e, w)
    end.

(** ** The rules of the specification

    Definitions that follow the words of the specification, to be compared
    with what the code computes. *)

(** A byte string that parses as an address. *)
Definition is_address `{Platform} (b : bytes) : Prop :=
  AddressParseFromBytes b = Ok b.

#[global] Instance is_address_dec `{Platform} (b : bytes) : Decision (is_address b).
Proof. unfold is_address. apply _. Defined.

(** A trie that holds a set of addresses: key and value are the address. *)
Definition address_set `{Platform} (t : Trie) : Prop :=
  ∀ k v, t !! k = Some v → k = v ∧ is_address v.


(** "For each entry in candidate: iterate delegate with the candidate's
    address as key prefix; for each delegator found, add
    balance(delegator) to that candidate's running total." *)
Definition delegators `{Platform} (delegate : Trie) (c : bytes) : list bytes :=
  (entries_under c delegate).*2.

Definition sumN (l : list N) : N := foldr N.add 0%N l.

Definition stake `{Platform} (accounts : AccountState) (delegate : Trie) (c : bytes) : N :=
  sumN (Balance accounts <$> delegators delegate c).


(** "An address is an active bootstrap validator if it appears in both the
    genesis dynasty and the current candidate set." *)
Definition active_bootstrap (genesis : Trie) (v : bytes) (dc : DynastyContext) : bool :=
  bool_decide (v ∈ dom genesis ∧ v ∈ dom (CandidateTrie dc)).

(** "These validators ... form a separate list ordered by canonical address
    string (ascending)." *)
Definition address_order (p q : Candidate) : Prop :=
  String.le (Hex (Address p)) (Hex (Address q)).

(** "The remaining candidates are sorted by descending score; ties are
    broken by ascending canonical address string." *)
Definition score_order (p q : Candidate) : Prop :=
  (Votes q < Votes p)%N ∨ (Votes p = Votes q ∧ address_order p q).

(** "Concatenation [bootstrap_sorted_by_address] || [non_bootstrap_sorted_
    by_score_desc]": the active bootstrap validators, each once, with a zero
    score, then the entries of the tally that are not active bootstrap
    validators, each once, with their score. *)
Definition is_ranking (genesis : Trie) (votes : gmap string N)
    (dc : DynastyContext) (out : list Candidate) : Prop :=
  ∃ boot rest,
    out = boot ++ rest
    ∧ NoDup boot
    ∧ (∀ p, p ∈ boot ↔ Votes p = 0%N ∧ active_bootstrap genesis (Address p) dc)
    ∧ Sorted address_order boot
    ∧ NoDup rest
    ∧ (∀ p, p ∈ rest ↔ votes !! Hex (Address p) = Some (Votes p)
                       ∧ ¬ active_bootstrap genesis (Address p) dc)
    ∧ Sorted score_order rest.


(** ** Vocabulary of the proofs

    Predicates on runs and on contexts that the properties below are
    proved with. *)

(** The errors a computation can end with. *)
Definition throws_within {S A} (E : error → Prop) (m : M S A) : Prop :=
  ∀ s e, outcome (m s) = Err e → E e.

(** Errors raised below the scheduler and below the genesis check. *)
Definition inner_error (e : error) : Prop :=
  e ≠ ErrNotBlockForgTime ∧ e ≠ ErrInitialDynastyNotEnough.

Definition keeps {S A} (R : relation S) (m : M S A) : Prop :=
  ∀ s, R s (final (m s)).

(** What kickout leaves alone in a dynasty context. *)
Definition kick_frame (s s' : DynastyContext) : Prop :=
  TimeStamp s' = TimeStamp s ∧ Offset s' = Offset s ∧ Proposer s' = Proposer s
  ∧ DynastyTrie s' = DynastyTrie s ∧ NextDynastyTrie s' = NextDynastyTrie s
  ∧ MintCntTrie s' = MintCntTrie s ∧ Accounts s' = Accounts s
  ∧ Storage s' = Storage s.

(** What a kick-out leaves alone, and what it can only shrink. *)
Definition shrinks (s s' : DynastyContext) : Prop :=
  kick_frame s s'
  ∧ CandidateTrie s' ⊆ CandidateTrie s
  ∧ DelegateTrie s' ⊆ DelegateTrie s.

(** The vote of [d] is withdrawn when it goes to [c]. *)
Definition unvote (c d : bytes) (vote : Trie) : Trie :=
  if bool_decide (vote !! d = Some c) then delete d vote else vote.

(** The address behind a canonical string. *)
Definition unhex (s : string) : bytes := default [] (FromHex s).
Arguments unhex : simpl never.

(** The active bootstrap validators, in the order the genesis dynasty
    yields them. *)
Definition active_validators `{Platform} (genesis : Trie) (dc : DynastyContext) : list bytes :=
  filter (λ v, v ∈ dom (CandidateTrie dc)) (entries_under [] genesis).*2.

(** ** A concrete platform and chain state

    Twenty-byte addresses without a checksum, tries and Go maps enumerated
    in the order of [map_to_list]; a genesis configuration of seven
    validators and one of three. *)

Definition demoPlatform : Platform :=
  {| AddressLength := 20; checksum_ok := λ _, true; GenesisTimestamp := 0;
     trie_order := map_to_list; range_order := map_to_list |}.

Definition demoAddress (n : Z) : bytes := replicate 19 "000"%byte ++ [byte_of_Z n].

Definition demoConf (n : nat) : GenesisConf :=
  {| Dynasty := (λ i : nat, Hex (demoAddress (Z.of_nat i))) <$> seq 1 n |}.

Definition demoAccounts : AccountState :=
  {| RootHash := []; Balance := λ a, 10%N |}.

(** The genesis context of [n] validators. *)
Definition demoGenesis (n : nat) : DynastyContext :=
  match GenesisDynastyContext (H:=demoPlatform) None (demoConf n) with
  | Ok dc => dc
  | Err _ => emptyDynastyContext (H:=demoPlatform)
  end.

(** The same with the account state and the storage (holding the genesis
    dynasty) a block gives to its contexts. *)
Definition demoContext (n : nat) : DynastyContext :=
  let dc := demoGenesis n in
  {| TimeStamp := TimeStamp dc; Offset := Offset dc; Proposer := Proposer dc;
     DynastyTrie := DynastyTrie dc; NextDynastyTrie := NextDynastyTrie dc;
     DelegateTrie := DelegateTrie dc; CandidateTrie := CandidateTrie dc;
     VoteTrie := VoteTrie dc; MintCntTrie := MintCntTrie dc;
     Accounts := Some demoAccounts;
     Storage := Some {| genesisDynastyTrie := Some (DynastyTrie dc) |} |}.


(** A voter 2 who votes for candidate 1 and is not among its delegators;
    a delegation to an address 1 that is not a candidate. *)
Definition demoOrphanVote : DynastyContext :=
  with_VoteTrie {[ demoAddress 2 := demoAddress 1 ]}
    (with_CandidateTrie {[ demoAddress 1 := demoAddress 1 ]}
       (emptyDynastyContext (H:=demoPlatform))).

Definition demoOrphanDelegation : DynastyContext :=
  with_DelegateTrie {[ demoAddress 1 ++ demoAddress 2 := demoAddress 2 ]}
    (emptyDynastyContext (H:=demoPlatform)).

(** A tally: the seven genesis validators with a score of 10, and two
    more candidates with a score of 30. *)
Definition demoVotes : gmap string N :=
  list_to_map ((λ ns : Z * N, (Hex (demoAddress ns.1), ns.2))
                 <$> [(1, 10%N); (2, 10%N); (3, 10%N); (4, 10%N); (5, 10%N);
                      (6, 10%N); (7, 10%N); (8, 30%N); (9, 30%N)]).

Definition demoBlock (n : nat) (timestamp : Z) : Block :=
  let dc := demoContext n in
  {| header_timestamp := timestamp;
     dposContext :=
       {| dynastyTrie := DynastyTrie dc; nextDynastyTrie := NextDynastyTrie dc;
          delegateTrie := DelegateTrie dc; voteTrie := VoteTrie dc;
          candidateTrie := CandidateTrie dc; mintCntTrie := MintCntTrie dc;
          storage := Storage dc |};
     accState := Accounts dc;
     block_storage := Storage dc |}.

(** * Properties *)

(** ** Reasoning about runs *)


Lemma bind_run {S A B} (m : M S A) (f : A → M S B) s a s1 w1 :
  m s = (Ok a, s1, w1) →
  bind m f s = (outcome (f a s1), final (f a s1), w1 ++ journal (f a s1)).
Proof.
  unfold bind, outcome, final, journal. intros ->.
  by destruct (f a s1) as [[r s2] w2].
Qed.

Lemma bind_fail {S A B} (m : M S A) (f : A → M S B) s e s1 w1 :
  m s = (Err e, s1, w1) → bind m f s = (Err e, s1, w1).
Proof. unfold bind. by intros ->. Qed.

Lemma bind_silent {S A B} (m : M S A) (f : A → M S B) s a s1 :
  m s = (Ok a, s1, []) → bind m f s = f a s1.
Proof. unfold bind. intros ->. by destruct (f a s1) as [[r s2] w2]. Qed.


Lemma run_eta {S A} (x : result A * S * list event) :
  x = (outcome x, final x, journal x).
Proof. by destruct x as [[r s] w]. Qed.

Lemma tw_ret {S A} E (a : A) : throws_within (S:=S) E (ret a).
Proof. by intros s e. Qed.

Lemma tw_throw {S A} (E : error → Prop) e : E e → throws_within (S:=S) (A:=A) E (throw e).
Proof. intros He s e' [= <-]. done. Qed.

Lemma tw_gets {S A} E (f : S → A) : throws_within E (gets f).
Proof. by intros s e. Qed.

Lemma tw_modify {S} E (f : S → S) : throws_within E (modify f).
Proof. by intros s e. Qed.

Lemma tw_emit {S} E ev : throws_within (S:=S) E (emit ev).
Proof. by intros s e. Qed.

Lemma tw_lift {S A} (E : error → Prop) (r : result A) :
  (∀ e, r = Err e → E e) → throws_within (S:=S) E (lift r).
Proof. intros Hr s e. unfold lift, outcome; simpl. apply Hr. Qed.

Lemma tw_bind {S A B} E (m : M S A) (f : A → M S B) :
  throws_within E m → (∀ a, throws_within E (f a)) → throws_within E (bind m f).
Proof.
  intros Hm Hf s e. unfold bind, outcome.
  destruct (m s) as [[[a|e1] s1] w1] eqn:Hms.
  - destruct (f a s1) as [[r s2] w2] eqn:Hfs. simpl. intros ->.
    apply (Hf a s1). unfold outcome. by rewrite Hfs.
  - simpl. intros [= ->]. apply (Hm s). unfold outcome. by rewrite Hms.
Qed.

Lemma tw_bind_try {S A B} (E0 E : error → Prop) (m : M S A) (f : result A → M S B) :
  throws_within E0 m →
  (∀ r, (∀ e, r = Err e → E0 e) → throws_within E (f r)) →
  throws_within E (bind (try m) f).
Proof.
  intros Hm Hf s e. unfold bind, try, outcome.
  destruct (m s) as [[r s1] w1] eqn:Hms.
  destruct (f r s1) as [[r' s2] w2] eqn:Hfs. simpl. intros ->.
  apply (Hf r) with s1; [|unfold outcome; by rewrite Hfs].
  intros e0 ->. apply (Hm s). unfold outcome. by rewrite Hms.
Qed.

Lemma tw_forM_ {S A} E (l : list A) (body : A → M S unit) :
  (∀ x, throws_within E (body x)) → throws_within E (forM_ l body).
Proof.
  intros Hb. induction l as [|x l IH]; simpl; [apply tw_ret|].
  apply tw_bind; [apply Hb|]. by intros _.
Qed.

Lemma tw_foldM {S A B} E (l : list A) (acc : B) (body : B → A → M S B) :
  (∀ acc x, throws_within E (body acc x)) → throws_within E (foldM l acc body).
Proof.
  intros Hb. revert acc. induction l as [|x l IH]; intros acc; simpl; [apply tw_ret|].
  apply tw_bind; [apply Hb|]. intros acc'. apply IH.
Qed.

Lemma tw_forZ_ {S} E n i (body : Z → M S unit) :
  (∀ x, throws_within E (body x)) → throws_within E (forZ_ n i body).
Proof.
  intros Hb. revert i. induction n as [|n IH]; intros i; simpl; [apply tw_ret|].
  apply tw_bind; [apply Hb|]. intros _. apply IH.
Qed.

Lemma tw_Get {S} (t : TrieRef S) key : throws_within (eq ErrKeyNotFound) (Get t key).
Proof.
  intros s e. unfold Get, outcome. destruct (_ !! _); simpl; congruence.
Qed.

Lemma tw_Del {S} (t : TrieRef S) key : throws_within (eq ErrKeyNotFound) (Del t key).
Proof.
  intros s e. unfold Del, outcome. destruct (_ !! _); simpl; congruence.
Qed.

Lemma tw_Put {S} E (t : TrieRef S) key val : throws_within E (Put t key val).
Proof. apply tw_modify. Qed.

Lemma tw_Empty {S} E (t : TrieRef S) : throws_within E (Empty t).
Proof. apply tw_gets. Qed.

Lemma tw_Iterator `{Platform} {S} (t : TrieRef S) prefix :
  throws_within (eq ErrKeyNotFound) (Iterator t prefix).
Proof.
  intros s e. unfold Iterator, outcome. destruct (entries_under _ _); simpl; congruence.
Qed.

Lemma tw_weaken {S A} (E E' : error → Prop) (m : M S A) :
  (∀ e, E e → E' e) → throws_within E m → throws_within E' m.
Proof. intros HE Hm s e He. apply HE, (Hm s e He). Qed.

Ltac tw_prim :=
  first [ apply tw_Get | apply tw_Del | apply tw_Iterator ].

Ltac tw_step :=
  lazymatch goal with
  | |- throws_within _ (ret _) => apply tw_ret
  | |- throws_within _ (throw _) => apply tw_throw; try done
  | |- throws_within _ (gets _) => apply tw_gets
  | |- throws_within _ (modify _) => apply tw_modify
  | |- throws_within _ (emit _) => apply tw_emit
  | |- throws_within _ (Put _ _ _) => apply tw_Put
  | |- throws_within _ (Empty _) => apply tw_Empty
  | |- throws_within _ (bind (try _) _) =>
      eapply tw_bind_try; [tw_prim|];
      let r := fresh "r" in let Hr := fresh "Hr" in
      intros [?|r] Hr;
      [|let Hk := fresh in pose proof (Hr _ eq_refl) as Hk; simpl in Hk; subst r]
  | |- throws_within _ (bind _ _) => apply tw_bind; [|intros ?]
  | |- throws_within _ (forM_ _ _) => apply tw_forM_; intros ?
  | |- throws_within _ (foldM _ _ _) => apply tw_foldM; intros ? ?
  | |- throws_within _ (forZ_ _ _ _) => apply tw_forZ_; intros ?
  | |- throws_within _ (if ?b then _ else _) => destruct b
  | |- throws_within _ (match ?x with _ => _ end) => destruct x
  end.

(** ** Which errors the election can end with *)

Lemma inner_error_not_found e : ErrKeyNotFound = e → inner_error e.
Proof. by intros <-. Qed.

Lemma AddressParseFromBytes_error `{Platform} b e :
  AddressParseFromBytes b = Err e → e = ErrInvalidAddress.
Proof. unfold AddressParseFromBytes. repeat case_match; congruence. Qed.

Lemma AddressParse_error `{Platform} s e :
  AddressParse s = Err e → e = ErrInvalidAddress.
Proof.
  unfold AddressParse. case_match; [apply AddressParseFromBytes_error|congruence].
Qed.

Lemma LoadGenesisDynasty_error stor e :
  LoadGenesisDynasty stor = Err e → inner_error e.
Proof. unfold LoadGenesisDynasty. repeat case_match; by intros [= <-]. Qed.

Lemma Int64_error data e : Int64 data = Err e → inner_error e.
Proof. unfold Int64. case_match; by intros [= <-]. Qed.

Ltac tw_inner :=
  repeat first
    [ tw_step
    | eapply tw_weaken; [apply inner_error_not_found|tw_prim]
    | apply tw_lift; intros ? ?%AddressParseFromBytes_error; by subst
    | apply tw_lift; intros ? ?%AddressParse_error; by subst
    | apply tw_lift; intros ? ?%LoadGenesisDynasty_error; done
    | apply tw_lift; intros ? ?%Int64_error; done ].

Lemma tw_kickout `{Platform} {S} stor (ct dt vt : TrieRef S) c :
  throws_within inner_error (kickout stor ct dt vt c).
Proof. unfold kickout, kickoutRound. tw_inner. Qed.

Lemma tw_kickoutCandidate `{Platform} c :
  throws_within inner_error (kickoutCandidate c).
Proof. unfold kickoutCandidate. tw_inner. apply tw_kickout. Qed.

Lemma tw_checkActiveBootstrapValidator {S} v stor (ct : TrieRef S) :
  throws_within inner_error (checkActiveBootstrapValidator v stor ct).
Proof. unfold checkActiveBootstrapValidator. tw_inner. Qed.

Lemma tw_kickoutDynasty `{Platform} dyn :
  throws_within inner_error (kickoutDynasty dyn).
Proof.
  unfold kickoutDynasty, kickoutDynastyRound. tw_inner.
  all: first [apply tw_checkActiveBootstrapValidator|apply tw_kickoutCandidate].
Qed.

Lemma tw_tallyVotes `{Platform} : throws_within inner_error tallyVotes.
Proof. unfold tallyVotes, tallyCandidate, tallyDelegator. tw_inner. Qed.

Lemma tw_fetchActiveBootstapValidators `{Platform} {S} stor (ct : TrieRef S) :
  throws_within inner_error (fetchActiveBootstapValidators stor ct).
Proof. unfold fetchActiveBootstapValidators, fetchActiveRound. tw_inner. Qed.

Lemma tw_chooseCandidates `{Platform} votes :
  throws_within inner_error (chooseCandidates votes).
Proof.
  unfold chooseCandidates, chooseBootstrap, chooseVoted. tw_inner.
  apply tw_fetchActiveBootstapValidators.
Qed.

Lemma tw_electRound `{Platform} next g i :
  throws_within inner_error (electRound next g i).
Proof.
  unfold electRound, selectDirect, selectRandom. tw_inner.
  all: first [apply tw_kickoutDynasty|apply tw_tallyVotes|apply tw_chooseCandidates].
Qed.

Lemma tw_electNextDynastyOnBaseDynasty `{Platform} base next g :
  throws_within inner_error (electNextDynastyOnBaseDynasty base next g).
Proof.
  unfold electNextDynastyOnBaseDynasty. tw_inner. apply tw_electRound.
Qed.

Lemma tw_TraverseDynasty `{Platform} {S} (t : TrieRef S) :
  throws_within inner_error (TraverseDynasty t).
Proof. unfold TraverseDynasty. tw_inner. Qed.

(** ** The scheduler view *)




Lemma forge_time_divide (ts : Z) :
  Z.rem (Z.rem ts DynastyInterval) BlockInterval = 0
  ↔ (BlockInterval | ts mod DynastyInterval).
Proof.
  unfold DynastyInterval, BlockInterval.
  pose proof (Z.quot_rem' ts 60) as Hq. pose proof (Z.div_mod ts 60 ltac:(lia)) as Hd.
  pose proof (Z.rem_divide (Z.rem ts 60) 5 ltac:(lia)) as ->.
  split; intros [k Hk].
  - exists (k + 12 * (ts ÷ 60) - 12 * (ts / 60)). lia.
  - exists (k + 12 * (ts / 60) - 12 * (ts ÷ 60)). lia.
Qed.


(** C4. For every block and elapsedSecond, NextDynastyContext fails with
    NOT_BLOCK_FORGE_TIME exactly when (block.timestamp + elapsedSecond) mod
    DYNASTY_INTERVAL is not divisible by BLOCK_INTERVAL (the sum being the
    int64 sum the code stores in the context), and in that case it fails
    with an empty journal: no election was started and no trie iterated. *)
Theorem NextDynastyContext_forge_time `{Platform} (block : Block) (elapsedSecond : Z) :
  let ts := add64 (header_timestamp block) elapsedSecond in
  ((NextDynastyContext block elapsedSecond).1 = Err ErrNotBlockForgTime
   ↔ ¬ (BlockInterval | ts mod DynastyInterval))
  ∧ (¬ (BlockInterval | ts mod DynastyInterval) →
     NextDynastyContext block elapsedSecond = (Err ErrNotBlockForgTime, [])).
Proof.
  intros ts. rewrite <-forge_time_divide.
  unfold NextDynastyContext. cbv zeta. cbn [TimeStamp]. fold ts.
  destruct (Z.eqb_spec (Z.rem (Z.rem ts DynastyInterval) BlockInterval) 0) as [Heq|Hne];
    simpl negb; cbv iota; [|by split_and!].
  split; [|done]. split; [|done].
  match goal with |- (match ?m ?c with _ => _ end).1 = _ → _ =>
    assert (throws_within inner_error m) as Htw; [|specialize (Htw c); revert Htw;
      unfold outcome; destruct (m c) as [[[[]|e] s] w]; simpl; [done|]]
  end.
  - tw_inner.
    all: first [apply tw_electNextDynastyOnBaseDynasty|apply tw_TraverseDynasty].
  - intros He [= ->]. by destruct (He _ eq_refl).
Qed.


(** ** The election driver *)






(** ** Kicking a candidate out *)

Lemma kickout_absent_run `{Platform} (c : bytes) (dc : DynastyContext) :
  CandidateTrie dc !! c = None →
  kickout (Storage dc) dcCandidate dcDelegate dcVote c dc = (Ok tt, dc, []).
Proof.
  intros Hc. unfold kickout, bind, try, Del, ret.
  simpl. by rewrite Hc.
Qed.

Lemma kickoutCandidate_kickout `{Platform} (c : bytes) (dc : DynastyContext) :
  kickoutCandidate c dc = kickout (Storage dc) dcCandidate dcDelegate dcVote c dc.
Proof. unfold kickoutCandidate. by rewrite (bind_silent _ _ dc (Storage dc) dc). Qed.

(** C10. For every address c that is not a key of the candidate trie,
    kickout(c) on the tries of a dynasty context returns success, leaves
    the whole context (so its candidate, delegate and vote tries) as it
    was, and has an empty journal: no iterator was opened on the delegate
    trie. *)
Theorem kickoutCandidate_absent `{Platform} (c : bytes) (dc : DynastyContext) :
  CandidateTrie dc !! c = None →
  kickoutCandidate c dc = (Ok tt, dc, [])
  ∧ kickout (Storage dc) dcCandidate dcDelegate dcVote c dc = (Ok tt, dc, []).
Proof.
  intros Hc. rewrite kickoutCandidate_kickout. split; by apply kickout_absent_run.
Qed.

Lemma kickoutCandidate_absent_witness :
  CandidateTrie (demoContext 3) !! demoAddress 9 = None
  ∧ kickoutCandidate (H:=demoPlatform) (demoAddress 9) (demoContext 3)
    = (Ok tt, demoContext 3, []).
Proof.
  assert (CandidateTrie (demoContext 3) !! demoAddress 9 = None) as Hc
    by (vm_compute; reflexivity).
  split; [exact Hc|].
  exact (proj1 (kickoutCandidate_absent (H:=demoPlatform) _ _ Hc)).
Defined.

Lemma NextDynastyContext_forge_time_witness :
  ¬ (BlockInterval | add64 0 3 mod DynastyInterval)
  ∧ NextDynastyContext (H:=demoPlatform) (demoBlock 7 0) 3 = (Err ErrNotBlockForgTime, []).
Proof.
  assert (¬ (BlockInterval | add64 0 3 mod DynastyInterval)) as Hn.
  { intros [k Hk]. change (add64 0 3 mod DynastyInterval) with 3 in Hk.
    unfold BlockInterval in Hk. lia. }
  split; [exact Hn|].
  exact (proj2 (NextDynastyContext_forge_time (H:=demoPlatform) (demoBlock 7 0) 3) Hn).
Defined.


(** ** The genesis context *)

Lemma lookup_foldl_insert (f : bytes → bytes) `{!Inj (=) (=) f}
    (vs : list bytes) (t : Trie) (k v : bytes) :
  foldl (λ t v, <[f v := v]> t) t vs !! k = Some v
  ↔ (k = f v ∧ v ∈ vs) ∨ (t !! k = Some v ∧ ∀ v', v' ∈ vs → k ≠ f v').
Proof.
  revert t. induction vs as [|a vs IH]; intros t; simpl.
  - split; [intros Ht; right; split; [done|]; by intros v' ?%elem_of_nil|].
    intros [[_ ?%elem_of_nil]|[? _]]; done.
  - rewrite IH, lookup_insert_Some. split.
    + intros [[-> Hv]|[[[<- <-]|[Hne Ht]] Hvs]].
      * left. split; [done|]. by apply elem_of_cons; right.
      * left. split; [done|]. by apply elem_of_cons; left.
      * right. split; [done|]. intros v' [->|Hv']%elem_of_cons; [done|by apply Hvs].
    + intros [[-> [->|Hv]%elem_of_cons]|[Ht Hvs]].
      * destruct (decide (a ∈ vs)) as [Hin|Hnin]; [by left|].
        right. split; [by left|].
        intros v' Hv' Heq%(inj f). by subst.
      * by left.
      * right. split.
        -- right. split; [|done]. intros <-. apply (Hvs a); [by left|done].
        -- intros v' Hv'. apply Hvs. by right.
Qed.

Lemma lookup_foldl_insert_empty (f : bytes → bytes) `{!Inj (=) (=) f}
    (vs : list bytes) (k v : bytes) :
  foldl (λ t v, <[f v := v]> t) (∅ : Trie) vs !! k = Some v ↔ k = f v ∧ v ∈ vs.
Proof.
  rewrite lookup_foldl_insert by done. rewrite lookup_empty.
  split; [intros [?|[? _]]; done|intros ?; by left].
Qed.

#[local] Instance double_inj : Inj (=) (=) (λ v : bytes, v ++ v).
Proof.
  intros v1 v2 Heq. simpl in Heq.
  assert (length v1 = length v2) as Hlen.
  { apply (f_equal length) in Heq. rewrite !length_app in Heq. lia. }
  by apply app_inj_1 in Heq as [? _].
Qed.

Lemma genesisMember_run `{Platform} (i : nat) (s : string) (dc : DynastyContext) :
  match AddressParse s with
  | Err e => genesisMember (i, s) dc = (Err e, dc, [])
  | Ok v =>
      ∃ dc', genesisMember (i, s) dc = (Ok tt, dc', [])
        ∧ CandidateTrie dc' = <[v := v]> (CandidateTrie dc)
        ∧ VoteTrie dc' = <[v := v]> (VoteTrie dc)
        ∧ DelegateTrie dc' = <[v ++ v := v]> (DelegateTrie dc)
        ∧ DynastyTrie dc' =
            (if Z.of_nat i <? DynastySize then <[v := v]> (DynastyTrie dc)
             else DynastyTrie dc)
  end.
Proof.
  unfold genesisMember, bind, lift, Put, modify, ret. simpl.
  destruct (AddressParse s) as [v|e]; [|done].
  destruct (Z.of_nat i <? DynastySize); by eexists.
Qed.

Lemma genesis_loop `{Platform} (l : list string) (start : nat) (dc : DynastyContext) :
  match forM_ (zip (seq start (length l)) l) genesisMember dc with
  | (Err e, _, _) => e = ErrInvalidAddress
  | (Ok _, dc', _) =>
      ∃ vs, Forall2 (λ s v, AddressParse s = Ok v) l vs
        ∧ CandidateTrie dc' = foldl (λ t v, <[v := v]> t) (CandidateTrie dc) vs
        ∧ VoteTrie dc' = foldl (λ t v, <[v := v]> t) (VoteTrie dc) vs
        ∧ DelegateTrie dc' = foldl (λ t v, <[v ++ v := v]> t) (DelegateTrie dc) vs
        ∧ DynastyTrie dc' =
            foldl (λ t v, <[v := v]> t) (DynastyTrie dc)
              (take (Z.to_nat DynastySize - start) vs)
  end.
Proof.
  revert start dc. induction l as [|s l IH]; intros start dc; simpl.
  { exists []. split_and!; try done. by rewrite take_nil. }
  pose proof (genesisMember_run start s dc) as Hm.
  destruct (AddressParse s) as [v|e] eqn:Hs.
  - destruct Hm as (dc1 & Hrun & Hc & Hv & Hd & Hy).
    rewrite (bind_run _ _ _ _ _ _ Hrun).
    specialize (IH (S start) dc1).
    unfold outcome, final.
    destruct (forM_ _ genesisMember dc1) as [[[[]|e] dc'] w]; simpl; [|done].
    destruct IH as (vs & Hvs & Hc' & Hv' & Hd' & Hy').
    exists (v :: vs). split_and!.
    + by constructor.
    + by rewrite Hc', Hc.
    + by rewrite Hv', Hv.
    + by rewrite Hd', Hd.
    + rewrite Hy', Hy. unfold DynastySize.
      destruct (Z.ltb_spec (Z.of_nat start) 6).
      * replace (Z.to_nat 6 - start)%nat with (S (Z.to_nat 6 - S start)) by lia. done.
      * replace (Z.to_nat 6 - start)%nat with 0%nat by lia.
        by replace (Z.to_nat 6 - S start)%nat with 0%nat by lia.
  - rewrite (bind_fail _ _ _ _ _ _ Hm). by apply AddressParse_error in Hs.
Qed.

(** C8. GenesisDynastyContext fails with INITIAL_DYNASTY_NOT_ENOUGH exactly
    when the configured dynasty list has fewer than SAFE_SIZE entries; when
    it succeeds every configured string parses to an address v, and the
    entries of candidate are the v -> v, those of vote the self-votes
    v -> v, those of delegate the self-delegations v||v -> v, for the
    configured addresses and no other; the entries of dynasty are the
    v -> v of the first DYNASTY_SIZE configured addresses and no other; and
    nextDynasty is equal to dynasty. *)
Theorem GenesisDynastyContext_spec `{Platform}
    (stor : option StorageHandle) (conf : GenesisConf) :
  (GenesisDynastyContext stor conf = Err ErrInitialDynastyNotEnough
   ↔ Z.of_nat (length (Dynasty conf)) < SafeSize)
  ∧ ∀ dc, GenesisDynastyContext stor conf = Ok dc →
      ∃ vs, Forall2 (λ s v, AddressParse s = Ok v) (Dynasty conf) vs
        ∧ (∀ k v, CandidateTrie dc !! k = Some v ↔ k = v ∧ v ∈ vs)
        ∧ (∀ k v, VoteTrie dc !! k = Some v ↔ k = v ∧ v ∈ vs)
        ∧ (∀ k v, DelegateTrie dc !! k = Some v ↔ k = v ++ v ∧ v ∈ vs)
        ∧ (∀ k v, DynastyTrie dc !! k = Some v
                  ↔ k = v ∧ v ∈ take (Z.to_nat DynastySize) vs)
        ∧ NextDynastyTrie dc = DynastyTrie dc.
Proof.
  unfold GenesisDynastyContext.
  pose proof (genesis_loop (Dynasty conf) 0 emptyDynastyContext) as Hloop.
  destruct (Z.ltb_spec (Z.of_nat (length (Dynasty conf))) SafeSize) as [Hlt|Hge].
  { split; [done|]. by intros dc. }
  destruct (forM_ _ genesisMember emptyDynastyContext) as [[[[]|e] dc'] w].
  - split; [split; [done|lia]|]. intros dc [= <-].
    destruct Hloop as (vs & Hvs & Hc & Hv & Hd & Hy).
    exists vs. simpl in *. split_and!; [done|..|done].
    + intros k v. rewrite Hc. apply (lookup_foldl_insert_empty (λ v, v)).
    + intros k v. rewrite Hv. apply (lookup_foldl_insert_empty (λ v, v)).
    + intros k v. rewrite Hd. apply (lookup_foldl_insert_empty (λ v, v ++ v)).
    + intros k v. rewrite Hy.
      apply (lookup_foldl_insert_empty (λ v, v)).
  - subst e. split; [split; [done|lia]|]. by intros dc.
Qed.

Lemma GenesisDynastyContext_spec_witness :
  let dc := demoGenesis 7 in
  GenesisDynastyContext (H:=demoPlatform) None (demoConf 7) = Ok dc
  ∧ NextDynastyTrie dc = DynastyTrie dc
  ∧ size (CandidateTrie dc) = 7%nat ∧ size (DynastyTrie dc) = 6%nat
  ∧ size (VoteTrie dc) = 7%nat ∧ size (DelegateTrie dc) = 7%nat.
Proof.
  intros dc.
  assert (GenesisDynastyContext (H:=demoPlatform) None (demoConf 7) = Ok dc) as Hrun.
  { unfold dc, demoGenesis.
    destruct (GenesisDynastyContext None (demoConf 7)) as [dc'|e] eqn:Hrun; [done|].
    apply (f_equal (λ r, match r with Ok _ => true | Err _ => false end)) in Hrun.
    vm_compute in Hrun. discriminate Hrun. }
  split; [exact Hrun|].
  destruct (proj2 (GenesisDynastyContext_spec (H:=demoPlatform) None (demoConf 7))
              dc Hrun) as (vs & _ & _ & _ & _ & _ & Hnext).
  split; [exact Hnext|].
  split_and!; vm_compute; reflexivity.
Defined.

(** ** What a computation leaves untouched *)

Section keeps.
Context {S : Type} (R : relation S) `{!PreOrder R}.






Lemma keeps_modify (f : S → S) : (∀ s, R s (f s)) → keeps R (modify f).
Proof. intros Hf s. apply Hf. Qed.









Lemma keeps_Put (t : TrieRef S) key val :
  (∀ x s, R s (trie_over t x s)) → keeps R (Put t key val).
Proof. intros Ht s. apply Ht. Qed.


End keeps.



(** ** Kicking a dynasty out *)

#[local] Instance kick_frame_preorder : PreOrder kick_frame.
Proof.
  split.
  - by intros s.
  - intros s1 s2 s3 (?&?&?&?&?&?&?&?) (?&?&?&?&?&?&?&?).
    unfold kick_frame. split_and!; congruence.
Qed.


Lemma elem_of_trie_order `{Platform} `{!PlatformLaws H} (t : Trie) (k v : bytes) :
  (k, v) ∈ trie_order t ↔ t !! k = Some v.
Proof. by rewrite trie_order_perm, elem_of_map_to_list. Qed.

Lemma elem_of_entries_under `{Platform} `{!PlatformLaws H}
    (prefix : bytes) (t : Trie) (k v : bytes) :
  (k, v) ∈ entries_under prefix t ↔ prefix `prefix_of` k ∧ t !! k = Some v.
Proof.
  unfold entries_under. rewrite list_elem_of_filter, elem_of_trie_order. done.
Qed.




Lemma demoPlatformLaws : PlatformLaws demoPlatform.
Proof. by split. Qed.



(** ** What kickout does to the three tries *)

Lemma kickoutRound_run (c d : bytes) (s : DynastyContext) :
  ∃ s' w, kickoutRound dcDelegate dcVote c d s = (Ok tt, s', w)
    ∧ DelegateTrie s' = delete (c ++ d) (DelegateTrie s)
    ∧ VoteTrie s' = unvote c d (VoteTrie s)
    ∧ CandidateTrie s' = CandidateTrie s.
Proof.
  destruct s as [ts off prop dyn nxt deleg cand vote mint acc stor].
  unfold kickoutRound, unvote, bind, try, Del, Get, ret, throw, emit. cbn.
  destruct (deleg !! (c ++ d)) as [x|] eqn:Hd; cbn.
  - destruct (vote !! d) as [b|] eqn:Hv; cbn.
    + destruct (decide (b = c)) as [->|Hne].
      * rewrite !bool_decide_eq_true_2 by done. cbn. rewrite Hv. by eexists _, _.
      * rewrite !bool_decide_eq_false_2 by congruence. by eexists _, _.
    + rewrite bool_decide_eq_false_2 by done. by eexists _, _.
  - rewrite (delete_id deleg) by done.
    destruct (vote !! d) as [b|] eqn:Hv; cbn.
    + destruct (decide (b = c)) as [->|Hne].
      * rewrite !bool_decide_eq_true_2 by done. cbn. rewrite Hv. by eexists _, _.
      * rewrite !bool_decide_eq_false_2 by congruence. by eexists _, _.
    + rewrite bool_decide_eq_false_2 by done. by eexists _, _.
Qed.

Lemma kickout_loop_run (c : bytes) (ds : list bytes) (s : DynastyContext) :
  ∃ s' w, forM_ ds (kickoutRound dcDelegate dcVote c) s = (Ok tt, s', w)
    ∧ DelegateTrie s' = foldl (λ t d, delete (c ++ d) t) (DelegateTrie s) ds
    ∧ VoteTrie s' = foldl (λ t d, unvote c d t) (VoteTrie s) ds
    ∧ CandidateTrie s' = CandidateTrie s.
Proof.
  revert s. induction ds as [|d ds IH]; intros s; simpl.
  { by exists s, []. }
  destruct (kickoutRound_run c d s) as (s1 & w1 & Hrun & Hd1 & Hv1 & Hc1).
  rewrite (bind_run _ _ _ _ _ _ Hrun).
  destruct (IH s1) as (s' & w & -> & Hd & Hv & Hc).
  exists s', (w1 ++ w). rewrite Hd, Hv, Hc, Hd1, Hv1, Hc1. done.
Qed.

Lemma lookup_foldl_delete (f : bytes → bytes) (ds : list bytes) (t : Trie) (k : bytes) :
  foldl (λ t d, delete (f d) t) t ds !! k = None ↔ t !! k = None ∨ k ∈ f <$> ds.
Proof.
  revert t. induction ds as [|d ds IH]; intros t; simpl.
  - rewrite elem_of_nil. split; [by left|by intros [?|[]]].
  - rewrite IH, lookup_delete_None, elem_of_cons.
    split; [intros [[<-|?]|?]; auto|intros [?|[->|?]]; auto].
Qed.

Lemma lookup_foldl_unvote (c : bytes) (ds : list bytes) (t : Trie) (x : bytes) :
  foldl (λ t d, unvote c d t) t ds !! x = Some c → t !! x = Some c ∧ x ∉ ds.
Proof.
  revert t. induction ds as [|d ds IH]; intros t; simpl.
  - intros ?. split; [done|]. apply not_elem_of_nil.
  - intros [Hx Hnin]%IH. unfold unvote in Hx. rewrite not_elem_of_cons.
    case_bool_decide as Hd.
    + apply lookup_delete_Some in Hx as [Hne Hx]. done.
    + split; [done|]. split; [|done]. intros ->. done.
Qed.

(** The run of kickout on a candidate of the trie. *)
Lemma kickoutCandidate_run `{Platform} (c : bytes) (dc : DynastyContext) :
  is_Some (CandidateTrie dc !! c) →
  ∃ dc' w, kickoutCandidate c dc = (Ok tt, dc', w)
    ∧ CandidateTrie dc' = delete c (CandidateTrie dc)
    ∧ DelegateTrie dc' =
        foldl (λ t d, delete (c ++ d) t) (DelegateTrie dc)
          (entries_under c (DelegateTrie dc)).*2
    ∧ VoteTrie dc' =
        foldl (λ t d, unvote c d t) (VoteTrie dc)
          (entries_under c (DelegateTrie dc)).*2.
Proof.
  intros [x Hx]. unfold kickoutCandidate.
  rewrite (bind_silent _ _ dc (Storage dc) dc) by done.
  unfold kickout.
  rewrite (bind_silent _ _ dc (Ok tt) (with_CandidateTrie (delete c (CandidateTrie dc)) dc)).
  2:{ unfold try, Del. simpl. by rewrite Hx. }
  unfold bind at 1. unfold try, Iterator. simpl.
  destruct (entries_under c (DelegateTrie dc)) as [|kv kvs] eqn:He.
  { simpl. by eexists _, _. }
  destruct (kickout_loop_run c (kv :: kvs).*2
              (with_CandidateTrie (delete c (CandidateTrie dc)) dc))
    as (s' & w & Hrun & Hd & Hv & Hc).
  rewrite (bind_run _ _ _ _ _ _ Hrun). simpl.
  by eexists _, _.
Qed.

(** C6, as the code has it. When the delegate entries under the prefix c
    have the form c||d -> d, every vote for c comes with its delegate entry
    c||d, and there are delegate entries under c only when c is a
    candidate, then after kickout(c) returns without error no key with
    prefix c exists in the delegate trie, c is not a key of the candidate
    trie, and no entry of the vote trie has value c. *)
Theorem kickoutCandidate_clears `{Platform} `{!PlatformLaws H}
    (c : bytes) (dc dc' : DynastyContext) (w : list event) :
  (∀ k d, DelegateTrie dc !! k = Some d → c `prefix_of` k → k = c ++ d) →
  (∀ d, VoteTrie dc !! d = Some c → DelegateTrie dc !! (c ++ d) = Some d) →
  (CandidateTrie dc !! c = None →
   ∀ k, c `prefix_of` k → DelegateTrie dc !! k = None) →
  kickoutCandidate c dc = (Ok tt, dc', w) →
  (∀ k, c `prefix_of` k → DelegateTrie dc' !! k = None)
  ∧ CandidateTrie dc' !! c = None
  ∧ (∀ d, VoteTrie dc' !! d ≠ Some c).
Proof.
  intros Hschema Hvote Hcand Hrun.
  destruct (CandidateTrie dc !! c) as [x|] eqn:Hc.
  - destruct (kickoutCandidate_run c dc) as (s' & w' & Hrun' & Hc' & Hd' & Hv');
      [by eexists|].
    rewrite Hrun' in Hrun. injection Hrun as <- <-.
    split_and!.
    + intros k Hk. rewrite Hd'. apply lookup_foldl_delete.
      destruct (DelegateTrie dc !! k) as [d|] eqn:Hkd; [right|by left].
      rewrite (Hschema k d Hkd Hk). apply list_elem_of_fmap_2.
      apply list_elem_of_fmap. exists (k, d). split; [done|].
      by apply elem_of_entries_under.
    + rewrite Hc'. apply lookup_delete_eq.
    + intros d Hd. rewrite Hv' in Hd.
      apply lookup_foldl_unvote in Hd as [Hd Hnin]. apply Hnin.
      apply list_elem_of_fmap. exists (c ++ d, d). split; [done|].
      apply elem_of_entries_under. split; [by apply prefix_app_r|by apply Hvote].
  - rewrite kickoutCandidate_kickout, (kickout_absent_run c dc Hc) in Hrun.
    injection Hrun as <- <-. specialize (Hcand eq_refl).
    split_and!; [done|done|].
    intros d Hd%Hvote. rewrite Hcand in Hd; [done|by apply prefix_app_r].
Qed.

Lemma kickoutCandidate_clears_witness :
  let c := demoAddress 1 in
  let dc := demoContext 7 in
  ∃ dc' w,
    (∀ k d, DelegateTrie dc !! k = Some d → c `prefix_of` k → k = c ++ d)
    ∧ (∀ d, VoteTrie dc !! d = Some c → DelegateTrie dc !! (c ++ d) = Some d)
    ∧ (CandidateTrie dc !! c = None →
       ∀ k, c `prefix_of` k → DelegateTrie dc !! k = None)
    ∧ kickoutCandidate (H:=demoPlatform) c dc = (Ok tt, dc', w)
    ∧ (∀ k, c `prefix_of` k → DelegateTrie dc' !! k = None)
    ∧ CandidateTrie dc' !! c = None
    ∧ (∀ d, VoteTrie dc' !! d ≠ Some c).
Proof.
  intros c dc.
  assert (map_Forall (λ k d : bytes, c `prefix_of` k → k = c ++ d) (DelegateTrie dc))
    as Hschema by (apply (bool_decide_unpack _); vm_compute; exact I).
  assert (map_Forall (λ d v : bytes, v = c → DelegateTrie dc !! (c ++ d) = Some d)
            (VoteTrie dc))
    as Hvote by (apply (bool_decide_unpack _); vm_compute; exact I).
  assert (CandidateTrie dc !! c = None →
          ∀ k, c `prefix_of` k → DelegateTrie dc !! k = None) as Hcand
    by (vm_compute; discriminate).
  destruct (kickoutCandidate_run (H:=demoPlatform) c dc) as (dc' & w & Hrun & _).
  { vm_compute. by eexists. }
  exists dc', w.
  split; [exact Hschema|].
  split; [exact (λ d Hd, Hvote d c Hd eq_refl)|].
  split; [exact Hcand|].
  split; [exact Hrun|].
  exact (kickoutCandidate_clears (H:=demoPlatform) (PlatformLaws0:=demoPlatformLaws)
           c dc dc' w Hschema (λ d Hd, Hvote d c Hd eq_refl) Hcand Hrun).
Defined.

(** C6, as stated, fails on two states. A voter whose vote goes
    to the candidate c without a delegate entry under c keeps its vote:
    kickout(c) finds no delegator and returns. A delegation to an address c
    that is not a candidate stays in the delegate trie: kickout(c) returns
    as soon as the candidate trie does not hold c. *)
Lemma kickoutCandidate_leaves_orphans :
  (outcome (kickoutCandidate (H:=demoPlatform) (demoAddress 1) demoOrphanVote) = Ok tt
   ∧ VoteTrie (final (kickoutCandidate (H:=demoPlatform) (demoAddress 1) demoOrphanVote))
       !! demoAddress 2 = Some (demoAddress 1))
  ∧ (outcome (kickoutCandidate (H:=demoPlatform) (demoAddress 1) demoOrphanDelegation)
       = Ok tt
     ∧ demoAddress 1 `prefix_of` demoAddress 1 ++ demoAddress 2
     ∧ DelegateTrie
         (final (kickoutCandidate (H:=demoPlatform) (demoAddress 1) demoOrphanDelegation))
         !! (demoAddress 1 ++ demoAddress 2) = Some (demoAddress 2)).
Proof.
  split_and!; try (vm_compute; reflexivity).
  by apply prefix_app_r.
Qed.

(** ** The canonical string of an address *)

Lemma hex_value_digit (n : N) : (n < 16)%N → hex_value (hex_digit n) = Some n.
Proof.
  intros Hn. rewrite <-(N2Nat.id n). assert (N.to_nat n < 16)%nat as Hlt by lia.
  revert Hlt. generalize (N.to_nat n). intros m Hm.
  do 16 (destruct m as [|m]; [reflexivity|]). lia.
Qed.

Lemma FromHex_Hex (data : bytes) : FromHex (Hex data) = Some data.
Proof.
  induction data as [|b data IH]; [done|]. simpl.
  pose proof (Byte.to_N_bounded b) as Hb.
  rewrite !hex_value_digit, IH.
  - rewrite <-N.div_mod by done. by rewrite Byte.of_to_N.
  - apply N.mod_lt. done.
  - apply N.Div0.div_lt_upper_bound. lia.
Qed.

#[local] Instance Hex_inj : Inj (=) (=) Hex.
Proof.
  intros a b Hab. apply (f_equal FromHex) in Hab.
  rewrite !FromHex_Hex in Hab. congruence.
Qed.

Lemma AddressParse_Hex `{Platform} (a : bytes) :
  AddressParse (Hex a) = AddressParseFromBytes a.
Proof. unfold AddressParse. by rewrite FromHex_Hex. Qed.

(** ** The vote tally *)

Lemma lookup_foldl_insert_gen `{Countable K} {A V} (f : A → K) (g : A → V)
    `{!Inj (=) (=) f} (l : list A) (m : gmap K V) (k : K) (v : V) :
  foldl (λ m a, <[f a := g a]> m) m l !! k = Some v
  ↔ (∃ a, a ∈ l ∧ k = f a ∧ v = g a) ∨ (m !! k = Some v ∧ ∀ a, a ∈ l → k ≠ f a).
Proof.
  revert m. induction l as [|a l IH]; intros m; simpl.
  - split; [intros ?; right; split; [done|]; by intros a ?%elem_of_nil|].
    intros [(a & ?%elem_of_nil & _)|[? _]]; done.
  - rewrite IH, lookup_insert_Some. split.
    + intros [(a' & Ha' & -> & ->)|[[[<- <-]|[Hne Hm]] Hl]].
      * left. exists a'. split; [by right|done].
      * left. exists a. split; [by left|done].
      * right. split; [done|]. intros a' [->|Ha']%elem_of_cons; [done|by apply Hl].
    + intros [(a' & [->|Ha']%elem_of_cons & -> & ->)|[Hm Hl]].
      * destruct (decide (f a ∈ f <$> l)) as [Hin|Hnin].
        -- apply list_elem_of_fmap in Hin as (a' & Heq%(inj f) & Ha'). subst a'.
           left. by exists a.
        -- right. split; [by left|].
           intros a' Ha' Heq. apply Hnin. rewrite Heq. by apply list_elem_of_fmap_2.
      * left. by exists a'.
      * right. split.
        -- right. split; [|done]. intros <-. apply (Hl a); [by left|done].
        -- intros a' Ha'. apply Hl. by right.
Qed.

Lemma tallyDelegator_loop `{Platform} (c d : bytes) (ds : list bytes)
    (votes : gmap string N) (dc : DynastyContext) (accounts : AccountState) :
  Accounts dc = Some accounts →
  Forall is_address (d :: ds) →
  foldM (d :: ds) votes (tallyDelegator c) dc =
  (Ok (<[Hex c := (default 0 (votes !! Hex c)
                   + sumN (Balance accounts <$> d :: ds))%N]> votes), dc, []).
Proof.
  intros Hacc. revert d votes. induction ds as [|d' ds IH]; intros d votes Hds.
  - apply Forall_cons in Hds as [Hd _]. simpl.
    unfold tallyDelegator, bind, lift, gets, ret. rewrite Hd, Hacc. simpl.
    by rewrite N.add_0_r.
  - apply Forall_cons in Hds as [Hd Hds].
    change (foldM (d :: d' :: ds) votes (tallyDelegator c))
      with (do acc' <- tallyDelegator c votes d; foldM (d' :: ds) acc' (tallyDelegator c)).
    rewrite (bind_silent _ _ dc
               (<[Hex c := (default 0 (votes !! Hex c) + Balance accounts d)%N]> votes) dc).
    2:{ unfold tallyDelegator, bind, lift, gets, ret. by rewrite Hd, Hacc. }
    rewrite IH by done. rewrite lookup_insert_eq, insert_insert_eq. simpl.
    by rewrite <-N.add_assoc.
Qed.

Lemma tallyCandidate_run `{Platform} (c : bytes)
    (votes : gmap string N) (dc : DynastyContext) (accounts : AccountState) :
  Accounts dc = Some accounts →
  is_address c →
  Forall is_address (delegators (DelegateTrie dc) c) →
  votes !! Hex c = None →
  ∃ w, tallyCandidate votes c dc =
       (Ok (<[Hex c := stake accounts (DelegateTrie dc) c]> votes), dc, w).
Proof.
  intros Hacc Hc Hds Hfresh. unfold tallyCandidate, stake.
  rewrite (bind_silent _ _ dc c dc) by (unfold lift; by rewrite Hc).
  unfold delegators in *.
  unfold bind, try, Iterator. change (trie_view dcDelegate dc) with (DelegateTrie dc).
  destruct (entries_under c (DelegateTrie dc)) as [|kv kvs] eqn:He.
  - by eexists.
  - rewrite fmap_cons in *. rewrite (tallyDelegator_loop _ _ _ _ _ _ Hacc Hds).
    rewrite Hfresh. simpl. by eexists.
Qed.

Lemma tallyCandidate_loop `{Platform} (cs : list bytes)
    (votes : gmap string N) (dc : DynastyContext) (accounts : AccountState) :
  Accounts dc = Some accounts →
  NoDup cs →
  Forall is_address cs →
  (∀ c, c ∈ cs → Forall is_address (delegators (DelegateTrie dc) c)) →
  (∀ c, c ∈ cs → votes !! Hex c = None) →
  ∃ w, foldM cs votes tallyCandidate dc =
       (Ok (foldl (λ m c, <[Hex c := stake accounts (DelegateTrie dc) c]> m) votes cs),
        dc, w).
Proof.
  intros Hacc. revert votes. induction cs as [|c cs IH];
    intros votes Hnd Hcs Hds Hfresh; simpl.
  { by eexists. }
  apply NoDup_cons in Hnd as [Hnin Hnd]. apply Forall_cons in Hcs as [Hc Hcs].
  destruct (tallyCandidate_run c votes dc accounts) as [w1 Hrun]; try done.
  { apply Hds. by left. }
  { apply Hfresh. by left. }
  rewrite (bind_run _ _ _ _ _ _ Hrun).
  destruct (IH (<[Hex c := stake accounts (DelegateTrie dc) c]> votes)) as [w Hloop];
    try done.
  { intros c' Hc'. apply Hds. by right. }
  { intros c' Hc'. rewrite lookup_insert_ne.
    - apply Hfresh. by right.
    - intros Heq%(inj Hex). by subst. }
  rewrite Hloop. by eexists.
Qed.

Lemma NoDup_entries_keys `{Platform} `{!PlatformLaws H} (prefix : bytes) (t : Trie) :
  NoDup (entries_under prefix t).*1.
Proof.
  apply (sublist_NoDup _ (trie_order t).*1).
  - rewrite trie_order_perm. apply NoDup_fst_map_to_list.
  - apply fmap_sublist, sublist_filter.
Qed.

Lemma elem_of_values_under `{Platform} `{!PlatformLaws H}
    (prefix : bytes) (t : Trie) (v : bytes) :
  v ∈ (entries_under prefix t).*2 ↔ ∃ k, prefix `prefix_of` k ∧ t !! k = Some v.
Proof.
  rewrite list_elem_of_fmap. split.
  - intros ([k v'] & -> & Hin%elem_of_entries_under). by exists k.
  - intros (k & Hk & Hv). exists (k, v). split; [done|].
    by apply elem_of_entries_under.
Qed.

Lemma address_set_members `{Platform} `{!PlatformLaws H} (t : Trie) :
  address_set t →
  NoDup (entries_under [] t).*2
  ∧ Forall is_address (entries_under [] t).*2
  ∧ ∀ c, c ∈ (entries_under [] t).*2 ↔ c ∈ dom t.
Proof.
  intros Ht. split_and!.
  - replace (entries_under [] t).*2 with (entries_under [] t).*1
      by (apply Forall_fmap_ext, Forall_forall;
          intros [k v] [_ Hkv]%elem_of_entries_under; by apply Ht in Hkv as [-> _]).
    apply NoDup_entries_keys.
  - apply Forall_forall. intros v (k & _ & Hkv)%elem_of_values_under.
    by apply Ht in Hkv as [_ ?].
  - intros c. rewrite elem_of_values_under, elem_of_dom. split.
    + intros (k & _ & Hkv). destruct (Ht _ _ Hkv) as [-> _]. by eexists.
    + intros [v Hv]. destruct (Ht _ _ Hv) as [-> _]. exists v.
      split; [apply prefix_nil|done].
Qed.

Lemma tallyVotes_run `{Platform} `{!PlatformLaws H}
    (dc : DynastyContext) (accounts : AccountState) :
  Accounts dc = Some accounts →
  address_set (CandidateTrie dc) →
  (∀ k d, DelegateTrie dc !! k = Some d → is_address d) →
  ∃ votes w, tallyVotes dc = (Ok votes, dc, w)
    ∧ ∀ s n, votes !! s = Some n
             ↔ ∃ c, c ∈ dom (CandidateTrie dc) ∧ s = Hex c
                    ∧ n = stake accounts (DelegateTrie dc) c.
Proof.
  intros Hacc Hcand Hdeleg.
  destruct (address_set_members _ Hcand) as (Hnd & Haddr & Hmem).
  unfold tallyVotes.
  rewrite (bind_silent _ _ dc (bool_decide (CandidateTrie dc = ∅)) dc) by done.
  case_bool_decide as Hempty.
  { exists ∅, []. split; [done|]. intros s n. rewrite lookup_empty, Hempty.
    split; [done|]. by intros (c & ?%elem_of_dom%is_Some_None & _). }
  unfold bind at 1. unfold try, Iterator.
  change (trie_view dcCandidate dc) with (CandidateTrie dc).
  destruct (entries_under [] (CandidateTrie dc)) as [|kv kvs] eqn:He.
  { exists ∅, [IterOpen candidateT []]. split; [done|]. intros s n.
    rewrite lookup_empty. split; [done|].
    intros (c & Hc%Hmem & _). by apply elem_of_nil in Hc. }
  destruct (tallyCandidate_loop (kv :: kvs).*2 ∅ dc accounts) as [w Hrun]; try done.
  { intros c _. apply Forall_forall.
    intros d (k & _ & Hkd)%elem_of_values_under. by eapply Hdeleg. }
  rewrite Hrun. eexists _, _. split; [done|].
  intros s n.
  rewrite (lookup_foldl_insert_gen Hex (stake accounts (DelegateTrie dc))).
  rewrite lookup_empty. setoid_rewrite Hmem. split.
  - intros [(c & ? & ? & ?)|[? _]]; [by exists c|done].
  - intros (c & ? & ? & ?). left. by exists c.
Qed.

(** C9. When the candidate trie holds a set of addresses, the delegators
    of the delegate trie are addresses and the context has its account
    state, tallyVotes returns a map and leaves the context as it was; the
    map has an entry for every key c of the candidate trie, under the
    canonical string of c: it is the sum of the balances of the delegators
    found under the prefix c of the delegate trie, and it is 0 when there
    is none (the iterator then answers ErrKeyNotFound and the tally goes
    on); the map has no other entry. *)
Theorem tallyVotes_scores `{Platform} `{!PlatformLaws H}
    (dc : DynastyContext) (accounts : AccountState) :
  Accounts dc = Some accounts →
  address_set (CandidateTrie dc) →
  (∀ k d, DelegateTrie dc !! k = Some d → is_address d) →
  ∃ votes w, tallyVotes dc = (Ok votes, dc, w)
    ∧ (∀ c, c ∈ dom (CandidateTrie dc) →
         votes !! Hex c
         = Some (sumN (Balance accounts <$> delegators (DelegateTrie dc) c)))
    ∧ (∀ c, c ∈ dom (CandidateTrie dc) →
         delegators (DelegateTrie dc) c = [] →
         outcome (Iterator dcDelegate c dc) = Err ErrKeyNotFound
         ∧ votes !! Hex c = Some 0%N)
    ∧ (∀ s, s ∈ dom votes → ∃ c, s = Hex c ∧ c ∈ dom (CandidateTrie dc)).
Proof.
  intros Hacc Hcand Hdeleg.
  destruct (tallyVotes_run dc accounts Hacc Hcand Hdeleg) as (votes & w & Hrun & Hvotes).
  exists votes, w. split_and!; [done|..].
  - intros c Hc. apply Hvotes. by exists c.
  - intros c Hc Hnone. split.
    + unfold Iterator, outcome. unfold delegators in Hnone.
      apply fmap_nil_inv in Hnone.
      change (trie_view dcDelegate dc) with (DelegateTrie dc). by rewrite Hnone.
    + apply Hvotes. exists c. unfold stake. by rewrite Hnone.
  - intros s [n Hn]%elem_of_dom. apply Hvotes in Hn as (c & ? & ? & _). by exists c.
Qed.

Lemma tallyVotes_scores_witness :
  let dc := demoContext 7 in
  ∃ votes w,
    Accounts dc = Some demoAccounts
    ∧ address_set (H:=demoPlatform) (CandidateTrie dc)
    ∧ (∀ k d, DelegateTrie dc !! k = Some d → is_address (H:=demoPlatform) d)
    ∧ tallyVotes (H:=demoPlatform) dc = (Ok votes, dc, w)
    ∧ votes !! Hex (demoAddress 1) = Some 10%N.
Proof.
  intros dc.
  assert (map_Forall (λ k v : bytes, k = v ∧ is_address (H:=demoPlatform) v)
            (CandidateTrie dc)) as Hcand
    by (apply (bool_decide_unpack _); vm_compute; exact I).
  assert (map_Forall (λ _ d : bytes, is_address (H:=demoPlatform) d) (DelegateTrie dc))
    as Hdeleg by (apply (bool_decide_unpack _); vm_compute; exact I).
  destruct (tallyVotes_scores (H:=demoPlatform) (PlatformLaws0:=demoPlatformLaws)
              dc demoAccounts eq_refl Hcand Hdeleg)
    as (votes & w & Hrun & Hscore & _).
  exists votes, w. split_and!; [reflexivity|exact Hcand|exact Hdeleg|exact Hrun|].
  rewrite Hscore; [vm_compute; reflexivity|].
  apply elem_of_dom. vm_compute. by eexists.
Defined.

(** ** The order of the candidates *)

Lemma string_ltb_leb (s1 s2 : string) : String.ltb s1 s2 = negb (String.leb s2 s1).
Proof.
  unfold String.ltb, String.leb. rewrite (String.compare_antisym s1 s2).
  by destruct (String.compare s2 s1).
Qed.

Lemma ranked_before_score_order (p q : Candidate) : ranked_before p q ↔ score_order p q.
Proof.
  unfold ranked_before, Less, score_order, address_order, String.le.
  destruct (N.ltb_spec (Votes q) (Votes p)) as [Hlt|Hge].
  - split; [by left|done].
  - destruct (N.ltb_spec (Votes p) (Votes q)) as [Hlt|Hge'].
    + split; [done|]. intros [?|[? _]]; lia.
    + rewrite string_ltb_leb. split.
      * intros Hle%negb_false_iff. right. split; [lia|]. by rewrite Hle.
      * intros [?|[_ Hle]]; [lia|]. apply negb_false_iff. by apply Is_true_true.
Qed.

#[local] Instance score_order_total : Total score_order.
Proof.
  intros p q. unfold score_order, address_order.
  destruct (N.lt_trichotomy (Votes p) (Votes q)) as [?|[Heq|?]]; [by right; left| |by left; left].
  destruct (total String.le (Hex (Address p)) (Hex (Address q))); [left|right]; by right.
Qed.

#[local] Instance score_order_trans : Transitive score_order.
Proof.
  intros p q r [?|[Hpq Hle1]] [?|[Hqr Hle2]]; unfold score_order.
  - left. lia.
  - left. lia.
  - left. lia.
  - right. split; [congruence|]. unfold address_order in *. by etrans.
Qed.

#[local] Instance score_order_antisymm : AntiSymm (=) score_order.
Proof.
  intros [a1 v1] [a2 v2] [?|[Hv Hle1]] [?|[Hv' Hle2]]; simpl in *; try lia.
  unfold address_order in *; simpl in *. f_equal; [|done].
  apply (inj Hex). by apply (anti_symm String.le).
Qed.

#[local] Instance ranked_before_total : Total ranked_before.
Proof.
  intros p q. rewrite !ranked_before_score_order. apply score_order_total.
Qed.

Lemma sort_Sort_perm (l : list Candidate) : sort_Sort l ≡ₚ l.
Proof. apply merge_sort_Permutation. Qed.

Lemma Sorted_restrict {A} (R R' : relation A) (P : A → Prop) (l : list A) :
  (∀ x y, P x → P y → R x y → R' x y) → Forall P l → Sorted R l → Sorted R' l.
Proof.
  intros HR HP Hs. induction Hs as [|x l Hs IH Hhd]; [constructor|].
  apply Forall_cons in HP as [Hx Hl]. constructor; [by apply IH|].
  destruct Hhd as [|y l Hxy]; constructor.
  apply Forall_cons in Hl as [Hy _]. by apply HR.
Qed.

Lemma sort_Sort_sorted (l : list Candidate) : Sorted score_order (sort_Sort l).
Proof.
  apply (Sorted_restrict ranked_before score_order (λ _, True)).
  - intros p q _ _. apply ranked_before_score_order.
  - by apply Forall_true.
  - apply (Sorted_merge_sort ranked_before).
Qed.

(** ** The ranking *)

Lemma unhex_Hex (a : bytes) : unhex (Hex a) = a.
Proof. unfold unhex. by rewrite FromHex_Hex. Qed.

Lemma fetchActiveRound_loop (vs acc : list bytes) (dc : DynastyContext) :
  foldM vs acc (fetchActiveRound dcCandidate) dc =
  (Ok (acc ++ filter (λ v, v ∈ dom (CandidateTrie dc)) vs), dc, []).
Proof.
  revert acc. induction vs as [|v vs IH]; intros acc; simpl.
  { by rewrite app_nil_r. }
  rewrite filter_cons.
  destruct (CandidateTrie dc !! v) as [x|] eqn:Hv.
  - rewrite (bind_silent _ _ dc (acc ++ [v]) dc).
    2:{ unfold fetchActiveRound, bind, try, Get, ret. simpl. by rewrite Hv. }
    rewrite IH, decide_True by (apply elem_of_dom; eauto).
    by rewrite <-app_assoc.
  - rewrite (bind_silent _ _ dc acc dc).
    2:{ unfold fetchActiveRound, bind, try, Get, ret. simpl. by rewrite Hv. }
    rewrite IH, decide_False; [done|].
    intros [x Hx]%elem_of_dom. congruence.
Qed.

Lemma fetchActiveBootstapValidators_run `{Platform} (genesis : Trie) (dc : DynastyContext) :
  LoadGenesisDynasty (Storage dc) = Ok genesis →
  ∃ w, fetchActiveBootstapValidators (Storage dc) dcCandidate dc =
       (Ok (filter (λ v, v ∈ dom (CandidateTrie dc)) (entries_under [] genesis).*2),
        dc, w).
Proof.
  intros Hg. unfold fetchActiveBootstapValidators.
  rewrite (bind_silent _ _ dc genesis dc) by (unfold lift; by rewrite Hg).
  unfold bind, try, Iterator. simpl.
  destruct (entries_under [] genesis) as [|kv kvs].
  - by eexists.
  - rewrite fetchActiveRound_loop. by eexists.
Qed.

Lemma chooseBootstrap_loop `{Platform} (vs : list bytes)
    (votes : gmap string N) (boots : list Candidate) (dc : DynastyContext) :
  Forall is_address vs →
  foldM vs (votes, boots) chooseBootstrap dc =
  (Ok (foldl (λ m v, delete (Hex v) m) votes vs,
       boots ++ ((λ v, {| Address := v; Votes := 0%N |}) <$> vs)), dc, []).
Proof.
  revert votes boots. induction vs as [|v vs IH]; intros votes boots Hvs; simpl.
  { by rewrite app_nil_r. }
  apply Forall_cons in Hvs as [Hv Hvs].
  rewrite (bind_silent _ _ dc
             (delete (Hex v) votes, boots ++ [{| Address := v; Votes := 0%N |}]) dc).
  2:{ unfold chooseBootstrap, bind, lift, ret. by rewrite Hv. }
  rewrite IH by done. by rewrite <-app_assoc.
Qed.

Lemma chooseVoted_loop `{Platform} (kvs : list (string * N))
    (acc : list Candidate) (dc : DynastyContext) :
  Forall (λ kv, ∃ a, kv.1 = Hex a ∧ is_address a) kvs →
  foldM kvs acc chooseVoted dc =
  (Ok (acc ++ ((λ kv, {| Address := unhex kv.1; Votes := kv.2 |}) <$> kvs)), dc, []).
Proof.
  revert acc. induction kvs as [|kv kvs IH]; intros acc Hkvs; simpl.
  { by rewrite app_nil_r. }
  apply Forall_cons in Hkvs as [(a & Hkv & Ha) Hkvs].
  rewrite (bind_silent _ _ dc
             (acc ++ [{| Address := unhex kv.1; Votes := kv.2 |}]) dc).
  2:{ unfold chooseVoted, bind, lift, ret.
      by rewrite Hkv, AddressParse_Hex, Ha, unhex_Hex. }
  rewrite IH by done. by rewrite <-app_assoc.
Qed.

Lemma chooseCandidates_run `{Platform} `{!PlatformLaws H}
    (votes : gmap string N) (genesis : Trie) (dc : DynastyContext) :
  LoadGenesisDynasty (Storage dc) = Ok genesis →
  address_set genesis →
  (∀ s, s ∈ dom votes → ∃ a, s = Hex a ∧ is_address a) →
  ∃ w, chooseCandidates votes dc =
       (Ok (sort_Sort ((λ v, {| Address := v; Votes := 0%N |})
                         <$> active_validators genesis dc)
            ++ sort_Sort ((λ kv, {| Address := unhex kv.1; Votes := kv.2 |})
                            <$> range_order
                                  (foldl (λ m v, delete (Hex v) m) votes
                                     (active_validators genesis dc)))),
        dc, w).
Proof.
  intros Hg Hgen Hvotes. unfold chooseCandidates.
  rewrite (bind_silent _ _ dc (Storage dc) dc) by done.
  destruct (fetchActiveBootstapValidators_run genesis dc Hg) as [w Hfetch].
  rewrite (bind_run _ _ _ _ _ _ Hfetch). fold (active_validators genesis dc).
  destruct (address_set_members _ Hgen) as (_ & Haddr & _).
  assert (Forall is_address (active_validators genesis dc)) as Hactive.
  { unfold active_validators. apply Forall_forall.
    intros v [_ Hv]%list_elem_of_filter. revert v Hv. by apply Forall_forall. }
  rewrite (bind_silent _ _ dc _ dc (chooseBootstrap_loop _ votes [] dc Hactive)).
  simpl.
  assert (Forall (λ kv : string * N, ∃ a, kv.1 = Hex a ∧ is_address a)
            (range_order (foldl (λ m v, delete (Hex v) m) votes
                            (active_validators genesis dc)))) as Hkeys.
  2:{ rewrite (bind_silent _ _ dc _ dc (chooseVoted_loop _ [] dc Hkeys)).
      simpl. by eexists. }
  apply Forall_forall. intros [s n] Hin. simpl.
  rewrite range_order_perm in Hin. apply elem_of_map_to_list in Hin.
  apply Hvotes, elem_of_dom.
  assert (∀ (vs : list bytes) (m : gmap string N),
            foldl (λ m v, delete (Hex v) m) m vs !! s = Some n → m !! s = Some n)
    as Hsub.
  { induction vs as [|v vs IH]; intros m; simpl; [done|].
    intros Hm%IH. by apply lookup_delete_Some in Hm as [_ ?]. }
  eexists. by eapply Hsub.
Qed.

Lemma lookup_foldl_delete_gen `{Countable K} {A V} (f : A → K)
    (l : list A) (m : gmap K V) (k : K) (x : V) :
  foldl (λ m a, delete (f a) m) m l !! k = Some x ↔ m !! k = Some x ∧ k ∉ f <$> l.
Proof.
  revert m. induction l as [|a l IH]; intros m; simpl.
  - split; [intros ?; split; [done|apply not_elem_of_nil]|by intros [? _]].
  - rewrite IH, lookup_delete_Some, not_elem_of_cons.
    split; [intros [[? ?] ?]|intros [? [? ?]]]; by split_and!.
Qed.

Lemma elem_of_active_validators `{Platform} `{!PlatformLaws H}
    (genesis : Trie) (dc : DynastyContext) (v : bytes) :
  address_set genesis →
  v ∈ active_validators genesis dc ↔ active_bootstrap genesis v dc.
Proof.
  intros Hgen. destruct (address_set_members _ Hgen) as (_ & _ & Hmem).
  unfold active_validators, active_bootstrap.
  rewrite list_elem_of_filter, Hmem, bool_decide_spec. tauto.
Qed.

Lemma NoDup_active_validators `{Platform} `{!PlatformLaws H}
    (genesis : Trie) (dc : DynastyContext) :
  address_set genesis → NoDup (active_validators genesis dc).
Proof.
  intros Hgen. destruct (address_set_members _ Hgen) as (Hnd & _ & _).
  by apply NoDup_filter.
Qed.

Lemma chooseCandidates_is_ranking `{Platform} `{!PlatformLaws H}
    (votes : gmap string N) (genesis : Trie) (dc : DynastyContext) :
  address_set genesis →
  (∀ s, s ∈ dom votes → ∃ a, s = Hex a ∧ is_address a) →
  is_ranking genesis votes dc
    (sort_Sort ((λ v, {| Address := v; Votes := 0%N |})
                  <$> active_validators genesis dc)
     ++ sort_Sort ((λ kv, {| Address := unhex kv.1; Votes := kv.2 |})
                     <$> range_order
                           (foldl (λ m v, delete (Hex v) m) votes
                              (active_validators genesis dc)))).
Proof.
  intros Hgen Hvotes.
  pose proof (λ v, elem_of_active_validators genesis dc v Hgen) as Hact.
  pose proof (NoDup_active_validators genesis dc Hgen) as Hnd.
  revert Hact Hnd. generalize (active_validators genesis dc). intros active Hact Hnd.
  set (votes1 := foldl (λ m v, delete (Hex v) m) votes active).
  set (mk0 := λ v : bytes, {| Address := v; Votes := 0%N |}).
  set (voted := λ kv : string * N, {| Address := unhex kv.1; Votes := kv.2 |}).
  assert (∀ p, p ∈ mk0 <$> active
               ↔ Votes p = 0%N ∧ active_bootstrap genesis (Address p) dc) as Hboot.
  { intros [a n]. rewrite list_elem_of_fmap. simpl. split.
    - intros (v & [= -> ->] & Hv). by apply Hact in Hv.
    - intros [-> Ha%Hact]. by exists a. }
  assert (∀ s n, votes1 !! s = Some n → ∃ a, s = Hex a ∧ is_address a) as Hkeys.
  { intros s n [Hs _]%lookup_foldl_delete_gen. apply Hvotes, elem_of_dom. by eexists. }
  assert (∀ p, p ∈ voted <$> range_order votes1
               ↔ votes !! Hex (Address p) = Some (Votes p)
                 ∧ ¬ active_bootstrap genesis (Address p) dc) as Hrest.
  { intros [a n]. rewrite list_elem_of_fmap. simpl.
    rewrite <-Hact. split.
    - intros ([s n'] & [= -> ->] & Hin). simpl.
      rewrite range_order_perm in Hin. apply elem_of_map_to_list in Hin.
      destruct (Hkeys _ _ Hin) as (a & -> & _). rewrite unhex_Hex.
      apply lookup_foldl_delete_gen in Hin as [Hin Hnin]. split; [done|].
      intros Ha. apply Hnin. by apply list_elem_of_fmap_2.
    - intros [Hv Hnin]. exists (Hex a, n). unfold voted. simpl.
      rewrite unhex_Hex. split; [done|].
      rewrite range_order_perm. apply elem_of_map_to_list.
      apply lookup_foldl_delete_gen. split; [done|].
      intros (a' & ->%(inj Hex) & Ha')%list_elem_of_fmap. done. }
  exists (sort_Sort (mk0 <$> active)), (sort_Sort (voted <$> range_order votes1)).
  split_and!; [done|..].
  - rewrite sort_Sort_perm. apply NoDup_fmap_2_strong.
    + by intros v1 v2 _ _ [= ->].
    + done.
  - intros p. by rewrite sort_Sort_perm.
  - apply (Sorted_restrict score_order address_order (λ p, Votes p = 0%N)).
    + intros p q Hp Hq [?|[_ ?]]; [lia|done].
    + apply Forall_forall. intros p. rewrite sort_Sort_perm. by intros [? _]%Hboot.
    + apply sort_Sort_sorted.
  - rewrite sort_Sort_perm. apply NoDup_fmap_2_strong.
    + intros [s1 n1] [s2 n2] Hin1 Hin2 [= Hs ->].
      rewrite range_order_perm in Hin1, Hin2.
      apply elem_of_map_to_list in Hin1, Hin2.
      destruct (Hkeys _ _ Hin1) as (a1 & -> & _).
      destruct (Hkeys _ _ Hin2) as (a2 & -> & _).
      rewrite !unhex_Hex in Hs. by subst.
    + rewrite range_order_perm. apply NoDup_map_to_list.
  - intros p. by rewrite sort_Sort_perm.
  - apply sort_Sort_sorted.
Qed.

#[local] Instance address_order_trans : Transitive address_order.
Proof. intros p q r. unfold address_order. apply transitivity. Qed.

Lemma is_ranking_unique (genesis : Trie) (votes : gmap string N)
    (dc : DynastyContext) (out1 out2 : list Candidate) :
  is_ranking genesis votes dc out1 → is_ranking genesis votes dc out2 → out1 = out2.
Proof.
  intros (boot1 & rest1 & -> & Hnd1 & Hb1 & Hs1 & Hndr1 & Hr1 & Hsr1)
         (boot2 & rest2 & -> & Hnd2 & Hb2 & Hs2 & Hndr2 & Hr2 & Hsr2).
  f_equal.
  - apply (Sorted_unique_strong address_order); try done.
    + intros p q [Hp _]%Hb1 [Hq _]%Hb2 Hpq Hqp.
      apply (anti_symm score_order); right; split; congruence.
    + apply NoDup_Permutation; [done..|]. intros p. by rewrite Hb1, Hb2.
  - apply (Sorted_unique score_order); try done.
    apply NoDup_Permutation; [done..|]. intros p. by rewrite Hr1, Hr2.
Qed.

(** C7. When the storage holds the genesis block, its dynasty is a set of
    addresses and the keys of the tally are canonical strings of addresses,
    chooseCandidates returns, leaving the context as it was, the active
    bootstrap validators with a zero score in ascending order of canonical
    string, followed by the entries of the tally that are not active
    bootstrap validators in descending order of score, ties in ascending
    order of canonical string; and this list is the only one of that
    description, whatever the order in which the map and the tries are
    iterated. *)
Theorem chooseCandidates_ranking `{Platform} `{!PlatformLaws H}
    (votes : gmap string N) (genesis : Trie) (dc : DynastyContext) :
  LoadGenesisDynasty (Storage dc) = Ok genesis →
  address_set genesis →
  (∀ s, s ∈ dom votes → ∃ a, s = Hex a ∧ is_address a) →
  ∃ out w, chooseCandidates votes dc = (Ok out, dc, w)
    ∧ is_ranking genesis votes dc out
    ∧ (∀ out', is_ranking genesis votes dc out' → out' = out)
    ∧ (∀ H' : Platform,
         PlatformLaws H' →
         (∀ b, AddressParseFromBytes (H:=H') b = AddressParseFromBytes (H:=H) b) →
         outcome (chooseCandidates (H:=H') votes dc) = Ok out).
Proof.
  intros Hg Hgen Hvotes.
  destruct (chooseCandidates_run votes genesis dc Hg Hgen Hvotes) as [w Hrun].
  pose proof (chooseCandidates_is_ranking votes genesis dc Hgen Hvotes) as Hrank.
  eexists _, w. split_and!; [exact Hrun|exact Hrank|..].
  - intros out' Hout'. by eapply is_ranking_unique.
  - intros H' Hlaws Hsame.
    assert (∀ b, is_address (H:=H) b → is_address (H:=H') b) as Haddr.
    { intros b. unfold is_address. by rewrite Hsame. }
    assert (address_set (H:=H') genesis) as Hgen'.
    { intros k v Hkv. destruct (Hgen k v Hkv). split; [done|by apply Haddr]. }
    assert (∀ s, s ∈ dom votes → ∃ a, s = Hex a ∧ is_address (H:=H') a) as Hvotes'.
    { intros s Hs. destruct (Hvotes s Hs) as (a & ? & ?). exists a. split; [done|].
      by apply Haddr. }
    destruct (chooseCandidates_run (H:=H') votes genesis dc Hg Hgen' Hvotes')
      as [w' Hrun'].
    rewrite Hrun'. unfold outcome; simpl. f_equal.
    eapply is_ranking_unique; [|exact Hrank].
    by apply (chooseCandidates_is_ranking (H:=H')).
Qed.

Lemma demoAddress_is_address (n : Z) : is_address (H:=demoPlatform) (demoAddress n).
Proof.
  unfold is_address, AddressParseFromBytes.
  change (@AddressLength demoPlatform) with 20%nat.
  change (@checksum_ok demoPlatform (demoAddress n)) with true.
  rewrite decide_True; [done|].
  unfold demoAddress. by rewrite length_app, length_replicate.
Qed.

Lemma chooseCandidates_ranking_witness :
  let dc := demoContext 7 in
  let genesis := DynastyTrie (demoGenesis 7) in
  ∃ out w,
    LoadGenesisDynasty (Storage dc) = Ok genesis
    ∧ address_set (H:=demoPlatform) genesis
    ∧ (∀ s, s ∈ dom demoVotes → ∃ a, s = Hex a ∧ is_address (H:=demoPlatform) a)
    ∧ chooseCandidates (H:=demoPlatform) demoVotes dc = (Ok out, dc, w)
    ∧ is_ranking genesis demoVotes dc out
    ∧ Address <$> out = demoAddress <$> [1; 2; 3; 4; 5; 6; 8; 9; 7].
Proof.
  intros dc genesis.
  assert (LoadGenesisDynasty (Storage dc) = Ok genesis) as Hg by reflexivity.
  assert (map_Forall (λ k v : bytes, k = v ∧ is_address (H:=demoPlatform) v) genesis)
    as Hgen by (apply (bool_decide_unpack _); vm_compute; exact I).
  assert (∀ s, s ∈ dom demoVotes → ∃ a, s = Hex a ∧ is_address (H:=demoPlatform) a)
    as Hvotes.
  { intros s Hs. unfold demoVotes in Hs. rewrite dom_list_to_map_L in Hs.
    apply elem_of_list_to_set in Hs. rewrite <-list_fmap_compose in Hs.
    apply list_elem_of_fmap in Hs as ([n score] & -> & Hin).
    exists (demoAddress n). split; [done|]. apply demoAddress_is_address. }
  destruct (chooseCandidates_ranking (H:=demoPlatform) (PlatformLaws0:=demoPlatformLaws)
              demoVotes genesis dc Hg Hgen Hvotes)
    as (out & w & Hrun & Hrank & _ & _).
  exists out, w. split_and!; [exact Hg|exact Hgen|exact Hvotes|exact Hrun|exact Hrank|].
  pose proof (f_equal (λ x, match outcome x with
                           | Ok l => Address <$> l
                           | Err _ => []
                           end) Hrun) as Hs.
  cbv beta in Hs.
  change (outcome (Ok out, dc, w)) with (Ok (A:=list Candidate) out) in Hs.
  cbv iota in Hs. rewrite <-Hs. vm_compute. reflexivity.
Defined.

(** ** The size of the elected dynasty *)


#[local] Instance shrinks_preorder : PreOrder shrinks.
Proof.
  split.
  - by intros s.
  - intros s1 s2 s3 (?&?&?) (?&?&?). split_and!; by etrans.
Qed.














